(** * Grid-approximation Bayesian inference: the Euro problem notebook

    A shallow embedding of the code cells of [02_euro.ipynb] (uniform and
    triangle priors over a 101-point grid, the Bayesian update by
    likelihood multiplication and renormalisation, [idxmax], [pmf_mean]
    and [credible_interval]) and the properties stated about them.

    Numbers.  The notebook computes with numpy's float64, whose
    operations round, underflow and overflow.  The cells are embedded
    twice.

    - Over [num]: an exact rational, one of the two infinities, or NaN.
      Arithmetic on finite values is exact (no rounding, no overflow or
      underflow, one unsigned zero); the special values follow IEEE-754
      ([0/0 = NaN], [x/0 = +-inf], [inf - inf = NaN], NaN propagates and
      compares false with everything).  Statements over [num] tell what
      a cell computes, step by step, which errors it raises and which
      special values it returns.
    - Over any carrier with any operations (module [Generic]): nothing is
      assumed of the operations, so a statement proved there holds of
      every arithmetic, float64 included.  [exact_ops] is the instance
      over [num]; [Binary64.ops] is IEEE-754 binary64 on Rocq's primitive
      floats, on which the cells can be run bit for bit. *)

From Stdlib Require Import List Bool Arith ZArith QArith Qcanon Lia Lqa Permutation.
From Stdlib Require Import Floats Uint63.
Import ListNotations.

Set Implicit Arguments.

(* ================================================================== *)
(** ** Exceptions *)

(** The Python exceptions the modelled code can raise. *)
Inductive exn : Type :=
| ValueError
| IndexError
| NameError
| ZeroDivisionError.

Inductive result (A : Type) : Type :=
| Ok (a : A)
| Raise (e : exn).

Arguments Ok {A} a.
Arguments Raise {A} e.

Definition bind {A B : Type} (r : result A) (k : A -> result B) : result B :=
  match r with
  | Ok a => k a
  | Raise e => Raise e
  end.

Declare Scope result_scope.
Delimit Scope result_scope with result.
Notation "x <- e ;; k" := (bind e (fun x => k))
  (at level 61, e at next level, right associativity) : result_scope.

(* ================================================================== *)
(** ** float64 values without rounding *)

Module Num.

Local Open Scope Qc_scope.

Inductive num : Type :=
| Fin (q : Qc)
| Inf (neg : bool)      (* [Inf false] is +inf, [Inf true] is -inf *)
| NaN.

Definition Qceqb (p q : Qc) : bool :=
  match p ?= q with Eq => true | _ => false end.

Definition Qcltb (p q : Qc) : bool :=
  match p ?= q with Lt => true | _ => false end.

Definition of_Z (z : Z) : num := Fin (Q2Qc (inject_Z z)).

Definition is_nan (a : num) : bool :=
  match a with NaN => true | _ => false end.

Definition nopp (a : num) : num :=
  match a with
  | Fin p => Fin (- p)
  | Inf s => Inf (negb s)
  | NaN => NaN
  end.

Definition nadd (a b : num) : num :=
  match a, b with
  | NaN, _ | _, NaN => NaN
  | Fin p, Fin q => Fin (p + q)
  | Inf s, Fin _ | Fin _, Inf s => Inf s
  | Inf s, Inf t => if Bool.eqb s t then Inf s else NaN
  end.

Definition nsub (a b : num) : num := nadd a (nopp b).

Definition nmul (a b : num) : num :=
  match a, b with
  | NaN, _ | _, NaN => NaN
  | Fin p, Fin q => Fin (p * q)
  | Inf s, Fin q | Fin q, Inf s =>
      if Qceqb q 0 then NaN else Inf (xorb s (Qcltb q 0))
  | Inf s, Inf t => Inf (xorb s t)
  end.

Definition ndiv (a b : num) : num :=
  match a, b with
  | NaN, _ | _, NaN => NaN
  | Fin p, Fin q =>
      if Qceqb q 0
      then (if Qceqb p 0 then NaN else Inf (Qcltb p 0))
      else Fin (p / q)
  | Fin _, Inf _ => Fin 0
  | Inf s, Fin q => Inf (xorb s (Qcltb q 0))
  | Inf _, Inf _ => NaN
  end.

(** [a ** n] for a non-negative integer exponent; [a ** 0] is 1 for every
    [a], NaN included, as C's [pow] has it. *)
Fixpoint npow (a : num) (n : nat) : num :=
  match n with
  | O => Fin 1
  | S n' => nmul a (npow a n')
  end.

(** [a < b]; false as soon as one side is NaN. *)
Definition nltb (a b : num) : bool :=
  match a, b with
  | NaN, _ | _, NaN => false
  | Fin p, Fin q => Qcltb p q
  | Fin _, Inf t => negb t
  | Inf s, Fin _ => s
  | Inf s, Inf t => s && negb t
  end.

Definition ngtb (a b : num) : bool := nltb b a.

End Num.
Export Num.

(* ================================================================== *)
(** ** numpy arrays: one-dimensional, as lists *)

Module Np.

(** [np.arange(start, stop, step)] on integers; a zero step is a
    division by zero in the computation of the length. *)
Definition arange (start stop step : Z) : result (list Z) :=
  if (step =? 0)%Z then Raise ZeroDivisionError
  else
    let len :=
      if (0 <? step)%Z
      then ((stop - start + step - 1) / step)%Z
      else ((start - stop + (- step) - 1) / (- step))%Z in
    Ok (map (fun i => (start + Z.of_nat i * step)%Z) (seq 0 (Z.to_nat len))).

(** [np.append(a, b)]. *)
Definition append {A : Type} (a b : list A) : list A := a ++ b.

(** An integer array used where floats are expected. *)
Definition astype_float (a : list Z) : list num := map of_Z a.

(** [np.linspace(start, stop, num)]: [num] evenly spaced values, both
    end points included; the last one is set to [stop] itself. *)
Definition linspace (start stop : num) (n : nat) : list num :=
  match n with
  | O => []
  | S O => [start]
  | S (S k as div) =>
      let step := ndiv (nsub stop start) (of_Z (Z.of_nat div)) in
      map (fun i => nadd (nmul (of_Z (Z.of_nat i)) step) start) (seq 0 div)
      ++ [stop]
  end.

(** [c - a] for a scalar [c]. *)
Definition rsub (c : num) (a : list num) : list num := map (nsub c) a.

(** [a ** n] for an integer [n >= 0]. *)
Definition power (a : list num) (n : nat) : list num :=
  map (fun v => npow v n) a.

End Np.

(* ================================================================== *)
(** ** pandas Series: an ordered list of (label, value) pairs *)

Module Pd.

Definition Series : Type := list (num * num).

Definition index (s : Series) : list num := map fst s.
Definition values (s : Series) : list num := map snd s.

(** [pd.Series(p, index=xs)] for a scalar [p]. *)
Definition Series_scalar (p : num) (idx : list num) : Series :=
  map (fun x => (x, p)) idx.

(** [pd.Series(data, index)] for an array [data]; the lengths must agree. *)
Definition Series_data (data idx : list num) : result Series :=
  if Nat.eqb (length data) (length idx)
  then Ok (combine idx data)
  else Raise ValueError.

(** [s * a] for an array [a]: position by position, labels kept; a new
    Series.  An array of one element is broadcast over the Series; any
    other array of another length is rejected. *)
Definition mul_array (s : Series) (a : list num) : result Series :=
  if Nat.eqb (length s) (length a)
  then Ok (map (fun '((x, m), v) => (x, nmul m v)) (combine s a))
  else
    match a with
    | [v] => Ok (map (fun '(x, m) => (x, nmul m v)) s)
    | _ => Raise ValueError
    end.

(** [s.sum()]: NaN entries are skipped (skipna=True). *)
Definition sum_values (l : list num) : num :=
  fold_left (fun acc v => if is_nan v then acc else nadd acc v) l (Fin 0%Qc).

Definition sum (s : Series) : num := sum_values (values s).

(** [s / t] for a scalar [t], every value divided.  No exception on a
    zero [t]: numpy yields NaN or an infinity. *)
Definition truediv (s : Series) (t : num) : Series :=
  map (fun '(x, m) => (x, ndiv m t)) s.

(** [s.cumsum()]: running totals in index order; a NaN entry stays NaN
    and does not enter the total (skipna=True). *)
Fixpoint cumsum_from (acc : num) (l : list num) : list num :=
  match l with
  | [] => []
  | v :: l' =>
      if is_nan v then NaN :: cumsum_from acc l'
      else let acc' := nadd acc v in acc' :: cumsum_from acc' l'
  end.

Definition cumsum (s : Series) : list num := cumsum_from (Fin 0%Qc) (values s).

(** [argmax]: position of the first occurrence of the largest value. *)
Fixpoint argmax_from (best_i : nat) (best : num) (i : nat) (l : list num) : nat :=
  match l with
  | [] => best_i
  | v :: l' =>
      if ngtb v best then argmax_from i v (S i) l'
      else argmax_from best_i best (S i) l'
  end.

Definition nan_to_neginf (v : num) : num := if is_nan v then Inf true else v.

(** [s.idxmax()]: the label of the first largest value.  NaN entries are
    ignored (skipna=True); an empty Series raises, an all-NaN one yields
    NaN (as in pandas 1.x, the version of the notebook's time; later
    versions raise on it). *)
Definition idxmax (s : Series) : result num :=
  match s with
  | [] => Raise ValueError
  | (x0, m0) :: rest =>
      if forallb is_nan (values s) then Ok NaN
      else
        let i := argmax_from 0 (nan_to_neginf m0) 1
                   (map nan_to_neginf (values rest)) in
        Ok (nth i (index s) NaN)
  end.

End Pd.

(* ================================================================== *)
(** ** scipy.interpolate.interp1d, linear *)

Module Scipy.

(** Modelled from the spec: [interp1d] belongs to scipy, not to the
    repository.  The model is the linear interpolant through the points
    [(x_k, y_k)] with [x] sorted (the caller passes [assume_sorted=True]):
    a query [x_new] inside [x_0 .. x_last] falls in the segment
    [x_k <= x_new < x_k+1] and is interpolated between [y_k] and [y_k+1];
    the last point maps to [y_last]. *)
Fixpoint interp_linear (x y : list num) (x_new : num) : num :=
  match x, y with
  | x0 :: ((x1 :: _) as xt), y0 :: ((y1 :: _) as yt) =>
      if nltb x_new x1
      then nadd (nmul (ndiv (nsub y1 y0) (nsub x1 x0)) (nsub x_new x0)) y0
      else interp_linear xt yt x_new
  | _ :: _, y0 :: _ => y0
  | _, _ => NaN
  end.

(** Modelled from the spec: the interpolant returned by
    [interp1d(x, y, bounds_error=False, fill_value=(below, above),
    assume_sorted=True)], applied to one query.  Queries under [x_0] yield
    [below], queries over [x_last] yield [above]; a NaN query yields
    NaN. *)
Definition interp1d_call (x y : list num) (below above : num) (x_new : num) : num :=
  if is_nan x_new then NaN
  else if nltb x_new (hd NaN x) then below
  else if ngtb x_new (last x NaN) then above
  else interp_linear x y x_new.

(** Modelled from the spec: construction of the interpolant; scipy
    rejects arrays of different lengths and fewer than two points. *)
Definition interp1d (x y : list num) (below above : num) : result (num -> num) :=
  if negb (Nat.eqb (length x) (length y)) then Raise ValueError
  else if Nat.ltb (length x) 2 then Raise ValueError
  else Ok (interp1d_call x y below above).

End Scipy.

(* ================================================================== *)
(** ** The notebook's cells *)

Local Open Scope result_scope.

(** An outcome of one spin. *)
Inductive outcome : Type := Heads | Tails.

Section Grid.

(** [xs]: the grid of candidate values of x. *)
Variable xs : list num.

(** Cell 8: the likelihood of heads and of tails at every grid point. *)
Definition likelihood_heads : list num := xs.
Definition likelihood_tails : list num := Np.rsub (of_Z 1) xs.

(** Cell 10, for any prior:
<<
posterior = prior * likelihood_heads * likelihood_tails
posterior /= posterior.sum()
>> *)
Definition posterior_cell (prior : Pd.Series) : result Pd.Series :=
  t <- Pd.mul_array prior likelihood_heads ;;
  posterior <- Pd.mul_array t likelihood_tails ;;
  Ok (Pd.truediv posterior (Pd.sum posterior)).

(** Cells 21 and 22 (and Exercise 1), for any prior and any counts:
<<
posterior1 = prior * likelihood_heads**140 * likelihood_tails**110
posterior1 /= posterior1.sum()
>> *)
Definition posterior_counts_cell (prior : Pd.Series) (heads tails : nat)
  : result Pd.Series :=
  t <- Pd.mul_array prior (Np.power likelihood_heads heads) ;;
  posterior <- Pd.mul_array t (Np.power likelihood_tails tails) ;;
  Ok (Pd.truediv posterior (Pd.sum posterior)).

(** The update behind those cells, for any sequence of (label, count)
    pairs: one factor [likelihood ** count] per pair, multiplied into the
    prior from left to right, then the division by the total. *)
Definition likelihood_array (o : outcome) : list num :=
  match o with
  | Heads => likelihood_heads
  | Tails => likelihood_tails
  end.

Fixpoint weigh (acc : Pd.Series) (outcomes : list (outcome * nat))
  : result Pd.Series :=
  match outcomes with
  | [] => Ok acc
  | (o, c) :: rest =>
      acc' <- Pd.mul_array acc (Np.power (likelihood_array o) c) ;;
      weigh acc' rest
  end.

Definition normalize (s : Pd.Series) : Pd.Series := Pd.truediv s (Pd.sum s).

Definition update (prior : Pd.Series) (outcomes : list (outcome * nat))
  : result Pd.Series :=
  posterior <- weigh prior outcomes ;;
  Ok (normalize posterior).

End Grid.

(** Cell 31: [np.sum(pmf.index * pmf)]. *)
Definition pmf_mean (pmf : Pd.Series) : num :=
  Pd.sum_values (map (fun '(x, m) => nmul x m) pmf).

(** Cell 39. *)
Definition credible_interval (pmf : Pd.Series) (prob : num)
  : result (num * num) :=
  (* make the CDF *)
  let xs := Pd.index pmf in
  let ys := Pd.cumsum pmf in
  (* compute the probabilities *)
  let p := ndiv (nsub (of_Z 1) prob) (of_Z 2) in
  let ps := (p, nsub (of_Z 1) p) in
  (* interpolate the inverse CDF *)
  x_first <- match xs with [] => Raise IndexError | x0 :: _ => Ok x0 end ;;
  x_last <- match xs with [] => Raise IndexError | _ => Ok (last xs NaN) end ;;
  interp <- Scipy.interp1d ys xs x_first x_last ;;
  Ok (interp (fst ps), interp (snd ps)).

(** The notebook's own values. *)
Module Euro.

(** Cell 4. *)
Definition xs : list num := Np.linspace (of_Z 0) (of_Z 1) 101.
Definition p : num := ndiv (of_Z 1) (of_Z 101).
Definition prior : Pd.Series := Pd.Series_scalar p xs.

(** Cell 10. *)
Definition posterior : result Pd.Series := posterior_cell xs prior.

(** Cell 15. *)
Definition ramp_up : result (list Z) := Np.arange 0 50 1.
Definition ramp_down : result (list Z) := Np.arange 50 (-1) (-1).
Definition ps : result (list Z) :=
  up <- ramp_up ;; down <- ramp_down ;; Ok (Np.append up down).

(** Cell 17. *)
Definition triangle : result Pd.Series :=
  ps <- ps ;;
  triangle <- Pd.Series_data (Np.astype_float ps) xs ;;
  Ok (Pd.truediv triangle (Pd.sum triangle)).

(** Cells 21 and 22. *)
Definition posterior1 : result Pd.Series :=
  posterior_counts_cell xs prior 140 110.
Definition posterior2 : result Pd.Series :=
  triangle <- triangle ;; posterior_counts_cell xs triangle 140 110.

End Euro.

(* ================================================================== *)
(** ** Object identity: Series as heap objects *)

(** A pandas Series is a mutable object and a Python variable holds a
    reference to it.  [s * a] builds a new object; [s /= t] changes the
    object [s] refers to, in place.  The heap is the list of all Series
    created so far, a reference is a position in it. *)
Module Heap.

Definition ref : Type := nat.
Definition heap : Type := list Pd.Series.

(** A computation on the heap that may raise. *)
Definition M (A : Type) : Type := heap -> result A * heap.

Definition ret {A : Type} (a : A) : M A := fun h => (Ok a, h).

Definition bindM {A B : Type} (m : M A) (k : A -> M B) : M B :=
  fun h =>
    match m h with
    | (Ok a, h') => k a h'
    | (Raise e, h') => (Raise e, h')
    end.

Definition lift {A : Type} (r : result A) : M A := fun h => (r, h).

Declare Scope heap_scope.
Delimit Scope heap_scope with heap.
Notation "x <- e ;; k" := (bindM e (fun x => k))
  (at level 61, e at next level, right associativity) : heap_scope.

Local Open Scope heap_scope.

(** The object behind a reference. *)
Definition deref (r : ref) : M Pd.Series :=
  fun h =>
    match nth_error h r with
    | Some s => (Ok s, h)
    | None => (Raise NameError, h)
    end.

(** A new object. *)
Definition alloc (s : Pd.Series) : M ref :=
  fun h => (Ok (length h), h ++ [s]).

(** Replace the contents of an object, keeping its identity. *)
Fixpoint set_nth (h : heap) (r : ref) (s : Pd.Series) : heap :=
  match h, r with
  | [], _ => []
  | _ :: t, O => s :: t
  | s0 :: t, S r' => s0 :: set_nth t r' s
  end.

Definition store (r : ref) (s : Pd.Series) : M unit :=
  fun h => (Ok tt, set_nth h r s).

(** [r * a]: a new Series. *)
Definition Series_mul (r : ref) (a : list num) : M ref :=
  s <- deref r ;;
  s' <- lift (Pd.mul_array s a) ;;
  alloc s'.

(** [r.sum()]. *)
Definition Series_sum (r : ref) : M num :=
  s <- deref r ;;
  ret (Pd.sum s).

(** [r /= t]: the object [r] itself is changed; the result is [r]. *)
Definition Series_itruediv (r : ref) (t : num) : M ref :=
  s <- deref r ;;
  _ <- store r (Pd.truediv s t) ;;
  ret r.

(** The factors of an update, multiplied in from left to right; every
    multiplication makes a new object. *)
Fixpoint weigh (xs : list num) (acc : ref) (outcomes : list (outcome * nat))
  : M ref :=
  match outcomes with
  | [] => ret acc
  | (o, c) :: rest =>
      acc' <- Series_mul acc (Np.power (likelihood_array xs o) c) ;;
      weigh xs acc' rest
  end.

(** The cells of the update, as statements:
<<
posterior = prior * factor_1 * ... * factor_n
posterior /= posterior.sum()
>>
    Every cell of the notebook has at least one factor, so [posterior]
    names an object made by [*]; with no factor at all it would name the
    prior itself. *)
Definition update (xs : list num) (prior : ref) (outcomes : list (outcome * nat))
  : M ref :=
  posterior <- weigh xs prior outcomes ;;
  t <- Series_sum posterior ;;
  Series_itruediv posterior t.

End Heap.

(* ================================================================== *)
(** ** The cells over any arithmetic *)

(** The cells once more, over a carrier [F] with its own operations.
    Nothing is assumed of the operations: they may round, underflow and
    overflow as float64 does, or be exact.  The definitions follow the
    ones above line by line. *)
Module Generic.

(** The operations the notebook uses on float64 values. *)
Class Ops (F : Type) : Type := {
  (** A Python or numpy integer used where a float is expected. *)
  of_int : Z -> F;
  add : F -> F -> F;
  sub : F -> F -> F;
  mul : F -> F -> F;
  div : F -> F -> F;
  (** [x ** n] for an integer [n >= 0]. *)
  pow : F -> nat -> F;
  isnan : F -> bool;
  (** [Series.sum()]: the sum of the values that are not NaN, in the
      order and grouping the library chooses. *)
  reduce_sum : list F -> F;
  (** The number a value stands for: every float64 is a rational, an
      infinity or NaN.  Used only to compare values and to interpolate. *)
  exact : F -> num
}.

Section Cells.

Context {F : Type} {A : Ops F}.

Definition Series : Type := list (F * F).

Definition index (s : Series) : list F := map fst s.
Definition values (s : Series) : list F := map snd s.

(** [pd.Series(data, index)] for an array [data] of any dtype; the
    lengths must agree. *)
Definition Series_data {D : Type} (data : list D) (idx : list F)
  : result (list (F * D)) :=
  if Nat.eqb (length data) (length idx)
  then Ok (combine idx data)
  else Raise ValueError.

(** [s * a]: position by position, a new Series; a one-element array is
    broadcast, any other array of another length is rejected. *)
Definition mul_array (s : Series) (a : list F) : result Series :=
  if Nat.eqb (length s) (length a)
  then Ok (map (fun '((x, m), v) => (x, mul m v)) (combine s a))
  else
    match a with
    | [v] => Ok (map (fun '(x, m) => (x, mul m v)) s)
    | _ => Raise ValueError
    end.

(** [s.sum()]. *)
Definition sum (s : Series) : F := reduce_sum (values s).

(** [s / t] for a scalar [t]. *)
Definition truediv (s : Series) (t : F) : Series :=
  map (fun '(x, m) => (x, div m t)) s.

(** [s.cumsum()]: running totals in index order; a NaN entry stays NaN
    and does not enter the total. *)
Fixpoint cumsum_from (acc : F) (l : list F) : list F :=
  match l with
  | [] => []
  | v :: l' =>
      if isnan v then v :: cumsum_from acc l'
      else let acc' := add acc v in acc' :: cumsum_from acc' l'
  end.

Definition cumsum (s : Series) : list F := cumsum_from (of_int 0) (values s).

(** [c - a] for a scalar [c]. *)
Definition rsub (c : F) (a : list F) : list F := map (sub c) a.

(** [a ** n] for an integer [n >= 0]. *)
Definition power (a : list F) (n : nat) : list F := map (fun v => pow v n) a.

(** [pd.Series(p, index=xs)] for a scalar [p]. *)
Definition Series_scalar (p : F) (idx : list F) : Series :=
  map (fun x => (x, p)) idx.

(** [np.linspace(start, stop, num)] as numpy computes it: the step is
    [(stop - start) / (num - 1)], point [i] is [i * step + start] (and
    [i / (num - 1) * (stop - start) + start] when the step is zero), and
    the last point is set to [stop] itself. *)
Definition linspace (start stop : F) (n : nat) : list F :=
  match n with
  | O => []
  | S O => [add (mul (of_int 0) (sub stop start)) start]
  | S (S _ as d) =>
      let delta := sub stop start in
      let step := div delta (of_int (Z.of_nat d)) in
      let y :=
        match exact step with
        | Fin q =>
            if Qceqb q 0
            then map (fun i => mul (div (of_int (Z.of_nat i)) (of_int (Z.of_nat d))) delta)
                   (seq 0 n)
            else map (fun i => mul (of_int (Z.of_nat i)) step) (seq 0 n)
        | _ => map (fun i => mul (of_int (Z.of_nat i)) step) (seq 0 n)
        end in
      removelast (map (fun v => add v start) y) ++ [stop]
  end.

Section Grid.

(** [xs]: the grid of candidate values of x. *)
Variable xs : list F.

(** Cell 8. *)
Definition likelihood_heads : list F := xs.
Definition likelihood_tails : list F := rsub (of_int 1) xs.

(** Cell 10:
<<
posterior = prior * likelihood_heads * likelihood_tails
posterior /= posterior.sum()
>> *)
Definition posterior_cell (prior : Series) : result Series :=
  t <- mul_array prior likelihood_heads ;;
  posterior <- mul_array t likelihood_tails ;;
  Ok (truediv posterior (sum posterior)).

(** Cells 21 and 22:
<<
posterior1 = prior * likelihood_heads**140 * likelihood_tails**110
posterior1 /= posterior1.sum()
>> *)
Definition posterior_counts_cell (prior : Series) (heads tails : nat)
  : result Series :=
  t <- mul_array prior (power likelihood_heads heads) ;;
  posterior <- mul_array t (power likelihood_tails tails) ;;
  Ok (truediv posterior (sum posterior)).

Definition likelihood_array (o : outcome) : list F :=
  match o with
  | Heads => likelihood_heads
  | Tails => likelihood_tails
  end.

(** One factor [likelihood ** count] per outcome, multiplied into the
    prior from left to right. *)
Fixpoint weigh (acc : Series) (outcomes : list (outcome * nat))
  : result Series :=
  match outcomes with
  | [] => Ok acc
  | (o, c) :: rest =>
      acc' <- mul_array acc (power (likelihood_array o) c) ;;
      weigh acc' rest
  end.

Definition normalize (s : Series) : Series := truediv s (sum s).

Definition update (prior : Series) (outcomes : list (outcome * nat))
  : result Series :=
  posterior <- weigh prior outcomes ;;
  Ok (normalize posterior).

(** One update per outcome, each applied to the posterior of the one
    before. *)
Fixpoint update_each (prior : Series) (outcomes : list (outcome * nat))
  : result Series :=
  match outcomes with
  | [] => Ok prior
  | oc :: rest =>
      posterior <- update prior [oc] ;;
      update_each posterior rest
  end.

(** Cells 15 and 17:
<<
triangle = pd.Series(ps, xs)
triangle /= triangle.sum()
>>
    [ps] is an integer array, so the Series holds integers and
    [triangle.sum()] is their integer sum; the division converts both
    sides to float. *)
Definition triangle : result Series :=
  ps <- Euro.ps ;;
  triangle <- Series_data ps xs ;;
  let total := fold_left Z.add (map snd triangle) 0%Z in
  Ok (map (fun '(x, k) => (x, div (of_int k) (of_int total))) triangle).

End Grid.

(** Cell 31: [np.sum(pmf.index * pmf)]. *)
Definition pmf_mean (pmf : Series) : F :=
  reduce_sum (map (fun '(x, m) => mul x m) pmf).

(** Cell 39.  The interpolant works on the numbers the values stand
    for. *)
Definition credible_interval (pmf : Series) (prob : F) : result (num * num) :=
  (* make the CDF *)
  let xs := index pmf in
  let ys := cumsum pmf in
  (* compute the probabilities *)
  let p := div (sub (of_int 1) prob) (of_int 2) in
  let ps := (p, sub (of_int 1) p) in
  (* interpolate the inverse CDF *)
  x_first <- match xs with [] => Raise IndexError | x0 :: _ => Ok x0 end ;;
  x_last <- match xs with [] => Raise IndexError | x0 :: _ => Ok (last xs x0) end ;;
  interp <- Scipy.interp1d (map exact ys) (map exact xs)
              (exact x_first) (exact x_last) ;;
  Ok (interp (exact (fst ps)), interp (exact (snd ps))).

(** The likelihood of one outcome at grid value [x]. *)
Definition likelihood (o : outcome) (x : F) : F :=
  match o with
  | Heads => x
  | Tails => sub (of_int 1) x
  end.

(** The unnormalised posterior mass at [x], as the specification words
    it: the prior mass [m] multiplied by [likelihood(label, x) ** count]
    for every outcome, in the order of the outcomes. *)
Definition unnormalized (outcomes : list (outcome * nat)) (x m : F) : F :=
  fold_left (fun acc oc => mul acc (pow (likelihood (fst oc) x) (snd oc)))
    outcomes m.

(** The posterior as the specification words it: the unnormalised mass
    at every grid point, divided by the sum of the unnormalised masses
    over all grid points. *)
Definition posterior_spec (prior : Series) (outcomes : list (outcome * nat))
  : Series :=
  let t := reduce_sum (map (fun xm => unnormalized outcomes (fst xm) (snd xm)) prior) in
  map (fun xm => (fst xm, div (unnormalized outcomes (fst xm) (snd xm)) t)) prior.

End Cells.

Arguments Series F : clear implicits.

End Generic.

(** Exact arithmetic with IEEE special values: the operations of [Num];
    the cells of [Generic] at this instance are the cells of the
    sections above. *)
#[global] Instance exact_ops : Generic.Ops num := {|
  Generic.of_int := of_Z;
  Generic.add := nadd;
  Generic.sub := nsub;
  Generic.mul := nmul;
  Generic.div := ndiv;
  Generic.pow := npow;
  Generic.isnan := is_nan;
  Generic.reduce_sum := Pd.sum_values;
  Generic.exact := fun a => a
|}.

(** IEEE-754 binary64, the arithmetic of numpy's float64, on Rocq's
    primitive floats: addition, subtraction, multiplication and division
    are the machine's, rounded to nearest. *)
Module Binary64.

Local Open Scope float_scope.

(** Exact for integers below 2^53 in absolute value. *)
Definition of_int (z : Z) : float :=
  match z with
  | Z0 => 0
  | Zpos _ => of_uint63 (Uint63.of_Z z)
  | Zneg p => - of_uint63 (Uint63.of_Z (Zpos p))
  end.

(** [x ** n] by repeated multiplication.  numpy calls the C library's
    [pow], which is not specified bit for bit; the two agree for the
    exponents 0, 1 and 2, for powers of two, and where the power
    underflows to zero. *)
Fixpoint pow (x : float) (n : nat) : float :=
  match n with
  | O => 1
  | S n' => x * pow x n'
  end.

(** [r[j] += a[j]] for the elements of a block. *)
Fixpoint add_each (r a : list float) : list float :=
  match r, a with
  | x :: r', y :: a' => (x + y) :: add_each r' a'
  | _, _ => r
  end.

(** [k] more blocks of eight elements of [a] added into the eight running
    sums [r]; the elements left over are returned with the sums. *)
Fixpoint blocks8 (k : nat) (r a : list float) : list float * list float :=
  match k with
  | O => (r, a)
  | S k' => blocks8 k' (add_each r (firstn 8 a)) (skipn 8 a)
  end.

(** numpy's sum of 8 to 128 elements: eight interleaved running sums,
    combined in pairs, then the elements left over one by one. *)
Definition sum_block (a : list float) : float :=
  let '(r, rest) := blocks8 (length a / 8 - 1) (firstn 8 a) (skipn 8 a) in
  match r with
  | [r0; r1; r2; r3; r4; r5; r6; r7] =>
      fold_left PrimFloat.add rest
        (((r0 + r1) + (r2 + r3)) + ((r4 + r5) + (r6 + r7)))
  | _ => fold_left PrimFloat.add a 0
  end.

(** numpy's pairwise summation: fewer than eight elements are added from
    left to right, up to 128 elements by [sum_block], and a longer array
    is split in two parts, the first a multiple of eight long, that are
    summed apart.  [fuel] bounds the depth of the splitting. *)
Fixpoint pairwise_sum (fuel : nat) (a : list float) : float :=
  let n := length a in
  if (n <? 8)%nat then fold_left PrimFloat.add a 0
  else
    match fuel with
    | S fuel' =>
        if (n <=? 128)%nat then sum_block a
        else
          let n2 := (n / 2 - (n / 2) mod 8)%nat in
          pairwise_sum fuel' (firstn n2 a) + pairwise_sum fuel' (skipn n2 a)
    | O => sum_block a
    end.

(** [Series.sum()] as pandas computes it: the NaN entries are replaced by
    zero and the array is summed by numpy. *)
Definition reduce_sum (l : list float) : float :=
  let filled := map (fun v => if PrimFloat.is_nan v then 0 else v) l in
  pairwise_sum (length filled) filled.

(** The rational [+-m * 2^e] a finite float stands for. *)
Definition exact (f : float) : num :=
  match Prim2SF f with
  | S754_zero _ => Fin 0%Qc
  | S754_infinity s => Inf s
  | S754_nan => NaN
  | S754_finite s m e =>
      let q := (inject_Z (Zpos m) * Qpower (2 # 1) e)%Q in
      Fin (Q2Qc (if s then (- q)%Q else q))
  end.

#[global] Instance ops : Generic.Ops float := {|
  Generic.of_int := of_int;
  Generic.add := PrimFloat.add;
  Generic.sub := PrimFloat.sub;
  Generic.mul := PrimFloat.mul;
  Generic.div := PrimFloat.div;
  Generic.pow := pow;
  Generic.isnan := PrimFloat.is_nan;
  Generic.reduce_sum := reduce_sum;
  Generic.exact := exact
|}.

(** Cell 4 in binary64. *)
Definition xs : list float := Generic.linspace 0 1 101.
Definition p : float := 1 / 101.
Definition prior : Generic.Series float := Generic.Series_scalar p xs.

(** The grid [1/3, 2/3] with the prior masses 1/4 and 3/4. *)
Definition thirds_grid : list float := [1 / 3; 2 / 3].
Definition thirds_prior : Generic.Series float := [(1 / 3, 0.25); (2 / 3, 0.75)].

(** The grid [1/4, 1/2, 3/4] with the prior masses 1/4, 1/2, 1/4. *)
Definition quarters_grid : list float := [0.25; 0.5; 0.75].
Definition quarters_prior : Generic.Series float :=
  [(0.25, 0.25); (0.5, 0.5); (0.75, 0.25)].

End Binary64.

(* ================================================================== *)
(** ** Finite PMFs and the posterior in closed form *)

Local Open Scope Qc_scope.

(** A PMF with finite masses over finite grid values, as exact rationals:
    the pairs (grid value, mass) in grid order. *)
Definition pmf : Type := list (Qc * Qc).

Definition of_finite (f : pmf) : Pd.Series :=
  map (fun xm => (Fin (fst xm), Fin (snd xm))) f.

(** The grid a finite PMF lives on, as the array [xs]. *)
Definition grid_of (f : pmf) : list num := map (fun xm => Fin (fst xm)) f.

Definition Qcsum (l : list Qc) : Qc := fold_right Qcplus 0 l.

Definition total (f : pmf) : Qc := Qcsum (map snd f).

(** The likelihood of one outcome at grid value [x]. *)
Definition likelihood (o : outcome) (x : Qc) : Qc :=
  match o with
  | Heads => x
  | Tails => 1 - x
  end.

(** The product over all outcomes of [likelihood(label, x) ** count]. *)
Fixpoint likelihood_product (outcomes : list (outcome * nat)) (x : Qc) : Qc :=
  match outcomes with
  | [] => 1
  | (o, c) :: rest => likelihood o x ^ c * likelihood_product rest x
  end.

(** The unnormalised posterior: prior mass times the likelihood product. *)
Definition weighted (outcomes : list (outcome * nat)) (f : pmf) : pmf :=
  map (fun xm => (fst xm, snd xm * likelihood_product outcomes (fst xm))) f.

(** Every mass divided by [t], with float division. *)
Definition divided (f : pmf) (t : Qc) : Pd.Series :=
  map (fun xm => (Fin (fst xm), ndiv (Fin (snd xm)) (Fin t))) f.

(** The posterior as the specification words it: pointwise product, then
    division by the sum of the products over all grid points. *)
Definition posterior_spec (f : pmf) (outcomes : list (outcome * nat)) : Pd.Series :=
  divided (weighted outcomes f) (total (weighted outcomes f)).

(** Cumulative sums of a list of rationals, starting from [acc]. *)
Fixpoint Qccumsum (acc : Qc) (l : list Qc) : list Qc :=
  match l with
  | [] => []
  | v :: l' => (acc + v) :: Qccumsum (acc + v) l'
  end.

(** Decidable equality on values, for checking concrete runs. *)
Definition num_eqb (a b : num) : bool :=
  match a, b with
  | Fin p, Fin q => Qc_eq_bool p q
  | Inf s, Inf t => Bool.eqb s t
  | NaN, NaN => true
  | _, _ => false
  end.

Fixpoint nums_eqb (l l' : list num) : bool :=
  match l, l' with
  | [], [] => true
  | a :: t, b :: t' => num_eqb a b && nums_eqb t t'
  | _, _ => false
  end.

Fixpoint series_eqb (s s' : Pd.Series) : bool :=
  match s, s' with
  | [], [] => true
  | (x, m) :: t, (y, n) :: t' => num_eqb x y && num_eqb m n && series_eqb t t'
  | _, _ => false
  end.

(** A run that returned the Series [s]. *)
Definition returns_series (r : result Pd.Series) (s : Pd.Series) : bool :=
  match r with
  | Ok s' => series_eqb s' s
  | Raise _ => false
  end.

(** The two-point grid [linspace(0, 1, 2)] with a uniform prior. *)
Definition coin2 : pmf := [(0, Q2Qc (1 # 2)); (1, Q2Qc (1 # 2))].

(** A grid value in [0, 1] with a non-negative mass, at every point. *)
Definition valid_point (xm : Qc * Qc) : Prop :=
  0 <= fst xm /\ fst xm <= 1 /\ 0 <= snd xm.

Definition valid_pmf (f : pmf) : Prop := Forall valid_point f.

Definition scaled (f : pmf) (t : Qc) : pmf :=
  map (fun xm => (fst xm, snd xm / t)) f.

(** Position [i] and position [100 - i] agree, for all [i] in 0..100. *)
Definition mirrored_Z (l : list Z) : bool :=
  forallb (fun i => (nth i l 0 =? nth (100 - i) l 0)%Z) (seq 0 101).

(** The inverse CDF as the specification words it, on rationals: the
    linear interpolant through the points (cumulative mass, grid value),
    clamped to the first grid value under the first cumulative mass and
    to the last grid value over the last one. *)
Fixpoint Qinterp_linear (x y : list Qc) (q : Qc) : Qc :=
  match x, y with
  | x0 :: ((x1 :: _) as xt), y0 :: ((y1 :: _) as yt) =>
      if Qcltb q x1 then (y1 - y0) / (x1 - x0) * (q - x0) + y0
      else Qinterp_linear xt yt q
  | _ :: _, y0 :: _ => y0
  | _, _ => 0
  end.

Definition Qinterp (x y : list Qc) (q : Qc) : Qc :=
  if Qcltb q (hd 0 x) then hd 0 y
  else if Qcltb (last x 0) q then last y 0
  else Qinterp_linear x y q.

Definition cdf (f : pmf) : list Qc := Qccumsum 0 (map snd f).

Definition inverse_cdf (f : pmf) (q : Qc) : Qc := Qinterp (cdf f) (map fst f) q.

Definition two : Qc := Q2Qc (2 # 1).

(** The lower target probability [(1 - prob) / 2]. *)
Definition p_lo (prob : Qc) : Qc := (1 - prob) / two.

(** The upper target probability [1 - p_lo]. *)
Definition p_hi (prob : Qc) : Qc := 1 - p_lo prob.

(** Each element is at most the next one. *)
Fixpoint nondecreasing (l : list Qc) : Prop :=
  match l with
  | a :: ((b :: _) as t) => a <= b /\ nondecreasing t
  | _ => True
  end.

(** The PMF with all mass on the first of two grid points. *)
Definition point_mass2 : pmf := [(0, 1); (1, 0)].

(** [i] is the first position of a largest mass of [f]. *)
Definition first_maximal (f : pmf) (i : nat) : Prop :=
  exists x m,
    nth_error f i = Some (x, m)
    /\ (forall j y n, nth_error f j = Some (y, n) -> n <= m)
    /\ (forall j y n, nth_error f j = Some (y, n) -> (j < i)%nat -> n < m).

(** Every mass multiplied by [c]. *)
Definition rescaled (c : Qc) (f : pmf) : pmf :=
  map (fun xm => (fst xm, c * snd xm)) f.

(** One update per outcome, each applied to the posterior of the one
    before. *)
Fixpoint update_each (xs : list num) (prior : Pd.Series)
    (outcomes : list (outcome * nat)) : result Pd.Series :=
  match outcomes with
  | [] => Ok prior
  | oc :: rest =>
      posterior <- update xs prior [oc] ;;
      update_each xs posterior rest
  end.

(** The Series over the grid values [g] whose every mass is NaN. *)
Definition nan_series (g : list Qc) : Pd.Series := map (fun x => (Fin x, NaN)) g.

(** Each element is less than the next one. *)
Fixpoint increasing (l : list Qc) : Prop :=
  match l with
  | a :: ((b :: _) as t) => a < b /\ increasing t
  | _ => True
  end.

(** The statement [s /= s.sum()] on the object [r], as in cell 17. *)
Definition normalize_in_place (r : Heap.ref) : Heap.M Heap.ref :=
  Heap.bindM (Heap.Series_sum r) (fun t => Heap.Series_itruediv r t).

(** The grid 1/4, 1/2, 3/4 with the masses 1/4, 1/2, 1/4. *)
Definition quarters : pmf :=
  [(Q2Qc (1 # 4), Q2Qc (1 # 4)); (Q2Qc (1 # 2), Q2Qc (1 # 2));
   (Q2Qc (3 # 4), Q2Qc (1 # 4))].


(* ------------------------------------------------------------------ *)
(** *** Arithmetic on finite values *)

Lemma Qceqb_true_iff (p q : Qc) : Qceqb p q = true <-> p = q.
Proof.
  unfold Qceqb. rewrite Qceq_alt. destruct (p ?= q); split; congruence.
Qed.

Lemma Qceqb_refl (p : Qc) : Qceqb p p = true.
Proof. now apply Qceqb_true_iff. Qed.

Lemma Qceqb_false_iff (p q : Qc) : Qceqb p q = false <-> p <> q.
Proof.
  rewrite <- Qceqb_true_iff. destruct (Qceqb p q); split; congruence.
Qed.

Lemma Qcltb_true_iff (p q : Qc) : Qcltb p q = true <-> p < q.
Proof.
  unfold Qcltb. rewrite Qclt_alt. destruct (p ?= q); split; congruence.
Qed.

Lemma Qcltb_false_iff (p q : Qc) : Qcltb p q = false <-> q <= p.
Proof.
  split; intro H.
  - apply Qcnot_lt_le. intro L. apply Qcltb_true_iff in L. congruence.
  - destruct (Qcltb p q) eqn:E; [|reflexivity].
    apply Qcltb_true_iff in E. now apply Qcle_not_lt in H.
Qed.

Lemma num_eqb_eq (a b : num) : num_eqb a b = true -> a = b.
Proof.
  destruct a as [p|s|], b as [q|t|]; simpl; try discriminate; intro H.
  - f_equal. now apply Qc_eq_bool_correct.
  - f_equal. now apply Bool.eqb_prop.
  - reflexivity.
Qed.

Lemma nums_eqb_eq (l l' : list num) : nums_eqb l l' = true -> l = l'.
Proof.
  revert l'. induction l as [|a t IH]; intros [|b t']; simpl; try discriminate.
  - reflexivity.
  - intro H. apply andb_prop in H. destruct H as [H1 H2].
    f_equal; [now apply num_eqb_eq | now apply IH].
Qed.

Lemma series_eqb_eq (s s' : Pd.Series) : series_eqb s s' = true -> s = s'.
Proof.
  revert s'. induction s as [|[x m] t IH]; intros [|[y n] t']; simpl;
    try discriminate.
  - reflexivity.
  - intro H. apply andb_prop in H. destruct H as [H H3].
    apply andb_prop in H. destruct H as [H1 H2].
    apply num_eqb_eq in H1. apply num_eqb_eq in H2. apply IH in H3.
    congruence.
Qed.

Lemma npow_Fin (q : Qc) (n : nat) : npow (Fin q) n = Fin (q ^ n).
Proof.
  induction n as [|n IH]; simpl; [reflexivity|]. now rewrite IH.
Qed.

Lemma ndiv_Fin (p q : Qc) : q <> 0 -> ndiv (Fin p) (Fin q) = Fin (p / q).
Proof.
  intro H. simpl. apply Qceqb_false_iff in H. now rewrite H.
Qed.

(* ------------------------------------------------------------------ *)
(** *** Series operations on finite PMFs *)

Lemma of_finite_length (f : pmf) : length (of_finite f) = length f.
Proof. apply length_map. Qed.

Lemma grid_of_length (f : pmf) : length (grid_of f) = length f.
Proof. apply length_map. Qed.

Lemma grid_of_weighted (outcomes : list (outcome * nat)) (f : pmf) :
  grid_of (weighted outcomes f) = grid_of f.
Proof.
  unfold grid_of, weighted. rewrite map_map. reflexivity.
Qed.

Lemma index_of_finite (f : pmf) : Pd.index (of_finite f) = grid_of f.
Proof. unfold Pd.index, of_finite, grid_of. now rewrite map_map. Qed.

Lemma values_of_finite (f : pmf) : Pd.values (of_finite f) = map Fin (map snd f).
Proof. unfold Pd.values, of_finite. now rewrite !map_map. Qed.

Lemma combine_map_same {A B C : Type} (g : A -> B) (h : A -> C) (l : list A) :
  combine (map g l) (map h l) = map (fun a => (g a, h a)) l.
Proof. induction l as [|a l IH]; simpl; congruence. Qed.

(** One factor of the update on a finite PMF: [acc * likelihood ** c]. *)
Lemma mul_likelihood_finite (o : outcome) (c : nat) (f : pmf) :
  Pd.mul_array (of_finite f) (Np.power (likelihood_array (grid_of f) o) c)
  = Ok (of_finite (map (fun xm => (fst xm, snd xm * likelihood o (fst xm) ^ c)) f)).
Proof.
  unfold Pd.mul_array, Np.power.
  rewrite length_map, of_finite_length.
  assert (L : length (likelihood_array (grid_of f) o) = length f).
  { destruct o; simpl; unfold likelihood_heads, likelihood_tails, Np.rsub;
      rewrite ?length_map; apply grid_of_length. }
  rewrite L, Nat.eqb_refl.
  assert (E : map (fun v => npow v c) (likelihood_array (grid_of f) o)
              = map (fun xm => Fin (likelihood o (fst xm) ^ c)) f).
  { destruct o; simpl; unfold likelihood_heads, likelihood_tails, Np.rsub, grid_of;
      rewrite !map_map; apply map_ext; intros [x m]; simpl;
      now rewrite npow_Fin. }
  rewrite E. unfold of_finite. rewrite combine_map_same, !map_map.
  apply f_equal, map_ext. intros [x m]. reflexivity.
Qed.

Lemma weigh_finite (outcomes : list (outcome * nat)) :
  forall f : pmf,
    weigh (grid_of f) (of_finite f) outcomes = Ok (of_finite (weighted outcomes f)).
Proof.
  induction outcomes as [|[o c] rest IH]; intro f; simpl.
  - f_equal. unfold of_finite, weighted. rewrite map_map.
    apply map_ext. intros [x m]. simpl. now rewrite Qcmult_1_r.
  - rewrite mul_likelihood_finite. simpl.
    set (f' := map (fun xm => (fst xm, snd xm * likelihood o (fst xm) ^ c)) f).
    assert (G : grid_of f = grid_of f').
    { unfold grid_of, f'. now rewrite map_map. }
    rewrite G, IH. f_equal. unfold of_finite, weighted, f'. rewrite !map_map.
    apply map_ext. intros [x m]. simpl. now rewrite Qcmult_assoc.
Qed.

Lemma sum_values_from (l : list Qc) (a : Qc) :
  fold_left (fun acc v => if is_nan v then acc else nadd acc v) (map Fin l) (Fin a)
  = Fin (a + Qcsum l).
Proof.
  revert a. induction l as [|q l IH]; intro a; simpl.
  - now rewrite Qcplus_0_r.
  - rewrite IH. now rewrite Qcplus_assoc.
Qed.

Lemma sum_finite (f : pmf) : Pd.sum (of_finite f) = Fin (total f).
Proof.
  unfold Pd.sum, Pd.sum_values. rewrite values_of_finite, sum_values_from.
  now rewrite Qcplus_0_l.
Qed.

Lemma truediv_finite (f : pmf) (t : Qc) :
  Pd.truediv (of_finite f) (Fin t) = divided f t.
Proof.
  unfold Pd.truediv, of_finite, divided. rewrite map_map.
  apply map_ext. intros [x m]. reflexivity.
Qed.

Lemma normalize_finite (f : pmf) : normalize (of_finite f) = divided f (total f).
Proof. unfold normalize. now rewrite sum_finite, truediv_finite. Qed.

(** The update of a finite prior, in closed form. *)
Lemma update_finite (f : pmf) (outcomes : list (outcome * nat)) :
  update (grid_of f) (of_finite f) outcomes = Ok (posterior_spec f outcomes).
Proof.
  unfold update. rewrite weigh_finite. simpl.
  now rewrite normalize_finite.
Qed.


Lemma returns_series_eq (r : result Pd.Series) (s : Pd.Series) :
  returns_series r s = true -> r = Ok s.
Proof.
  destruct r as [s'|e]; simpl; [|discriminate].
  intro H. f_equal. now apply series_eqb_eq.
Qed.

Lemma increasing_nondecreasing (l : list Qc) : increasing l -> nondecreasing l.
Proof.
  induction l as [|a [|b t] IH]; intro H; try exact I.
  destruct H as [Hab Ht]. split; [now apply Qclt_le_weak | now apply IH].
Qed.

(* ------------------------------------------------------------------ *)
(** *** Shapes *)

Lemma likelihood_array_length (xs : list num) (o : outcome) :
  length (likelihood_array xs o) = length xs.
Proof.
  destruct o; simpl; unfold likelihood_heads, likelihood_tails, Np.rsub;
    now rewrite ?length_map.
Qed.

Lemma mul_array_index (s : Pd.Series) :
  forall a : list num,
    length s = length a ->
    exists s', Pd.mul_array s a = Ok s'
               /\ Pd.index s' = Pd.index s /\ length s' = length s.
Proof.
  intros a L. unfold Pd.mul_array. rewrite L, Nat.eqb_refl. eexists.
  split; [reflexivity|].
  revert a L. induction s as [|[x m] s IH]; intros [|v a] L; try discriminate L.
  - split; reflexivity.
  - destruct (IH a) as [I1 I2]; [simpl in L; lia|].
    unfold Pd.index in *. simpl. split; [now rewrite I1 | now rewrite I2].
Qed.

Lemma mul_array_mismatch (s : Pd.Series) (a : list num) :
  length s <> length a -> length a <> 1%nat ->
  Pd.mul_array s a = Raise ValueError.
Proof.
  intros N N1. unfold Pd.mul_array.
  destruct (Nat.eqb_spec (length s) (length a)); [contradiction|].
  destruct a as [|v [|w a]]; [reflexivity | now elim N1 | reflexivity].
Qed.

Lemma weigh_index (xs : list num) (outcomes : list (outcome * nat)) :
  forall acc : Pd.Series,
    length acc = length xs ->
    exists s', weigh xs acc outcomes = Ok s'
               /\ Pd.index s' = Pd.index acc /\ length s' = length acc.
Proof.
  induction outcomes as [|[o c] rest IH]; intros acc L; simpl.
  - exists acc. repeat split.
  - destruct (@mul_array_index acc (Np.power (likelihood_array xs o) c))
      as (s1 & -> & I1 & L1).
    { unfold Np.power. now rewrite length_map, likelihood_array_length. }
    simpl. destruct (IH s1) as (s' & W & I2 & L2); [congruence|].
    exists s'. split; [exact W|]. split; congruence.
Qed.

Lemma truediv_index (s : Pd.Series) (t : num) :
  Pd.index (Pd.truediv s t) = Pd.index s /\ length (Pd.truediv s t) = length s.
Proof.
  unfold Pd.truediv, Pd.index. rewrite map_map, length_map. split; [|reflexivity].
  apply map_ext. intros [x m]. reflexivity.
Qed.

(* ------------------------------------------------------------------ *)
(** *** The update computes the normalised pointwise product *)

(** One multiplication by an array over the Series' own labels. *)
Lemma generic_mul_factor {F : Type} {A : Generic.Ops F}
    (acc : Generic.Series F) (g : F -> F) :
  Generic.mul_array acc (map g (Generic.index acc))
  = Ok (map (fun xm => (fst xm, Generic.mul (snd xm) (g (fst xm)))) acc).
Proof.
  unfold Generic.mul_array, Generic.index. rewrite !length_map, Nat.eqb_refl.
  apply f_equal. rewrite map_map.
  induction acc as [|[x m] acc IH]; simpl; [reflexivity|]. now rewrite IH.
Qed.

Lemma generic_likelihood_array {F : Type} {A : Generic.Ops F}
    (xs : list F) (o : outcome) (c : nat) :
  Generic.power (Generic.likelihood_array xs o) c
  = map (fun x => Generic.pow (Generic.likelihood o x) c) xs.
Proof.
  destruct o; simpl;
    unfold Generic.power, Generic.likelihood_heads, Generic.likelihood_tails,
      Generic.rsub; rewrite ?map_map; reflexivity.
Qed.

(** The factors, multiplied in one array at a time, leave at every grid
    point the prior mass multiplied by that point's factors. *)
Lemma generic_weigh_unnormalized {F : Type} {A : Generic.Ops F}
    (outcomes : list (outcome * nat)) :
  forall acc : Generic.Series F,
    Generic.weigh (Generic.index acc) acc outcomes
    = Ok (map (fun xm => (fst xm, Generic.unnormalized outcomes (fst xm) (snd xm)))
            acc).
Proof.
  induction outcomes as [|[o c] rest IH]; intro acc.
  - simpl. apply f_equal. rewrite <- (map_id acc) at 1.
    apply map_ext. now intros [x m].
  - cbn [Generic.weigh]. rewrite generic_likelihood_array, generic_mul_factor.
    cbn [bind].
    set (acc' := map (fun xm : F * F =>
                        (fst xm,
                         Generic.mul (snd xm)
                           (Generic.pow (Generic.likelihood o (fst xm)) c)))
                   acc).
    assert (I : Generic.index acc = Generic.index acc').
    { unfold Generic.index, acc'. rewrite map_map. reflexivity. }
    rewrite I, IH. apply f_equal. unfold acc'. rewrite map_map.
    apply map_ext. now intros [x m].
Qed.

Lemma generic_update_closed {F : Type} {A : Generic.Ops F}
    (prior : Generic.Series F) (outcomes : list (outcome * nat)) :
  Generic.update (Generic.index prior) prior outcomes
  = Ok (Generic.posterior_spec prior outcomes).
Proof.
  unfold Generic.update. rewrite generic_weigh_unnormalized. cbn [bind].
  apply f_equal.
  unfold Generic.normalize, Generic.truediv, Generic.sum, Generic.values,
    Generic.posterior_spec.
  rewrite !map_map. apply map_ext. now intros [x m].
Qed.

Lemma generic_posterior_counts_cell_update {F : Type} {A : Generic.Ops F}
    (xs : list F) (prior : Generic.Series F) (h t : nat) :
  Generic.posterior_counts_cell xs prior h t
  = Generic.update xs prior [(Heads, h); (Tails, t)].
Proof.
  unfold Generic.posterior_counts_cell, Generic.update. simpl.
  destruct (Generic.mul_array prior (Generic.power (Generic.likelihood_heads xs) h))
    as [s1|e]; simpl; [|reflexivity].
  destruct (Generic.mul_array s1 (Generic.power (Generic.likelihood_tails xs) t))
    as [s2|e]; reflexivity.
Qed.

Lemma generic_posterior_cell_closed {F : Type} {A : Generic.Ops F}
    (prior : Generic.Series F) :
  Generic.posterior_cell (Generic.index prior) prior
  = Ok (map (fun xm =>
               (fst xm,
                Generic.div
                  (Generic.mul (Generic.mul (snd xm) (fst xm))
                     (Generic.sub (Generic.of_int 1) (fst xm)))
                  (Generic.reduce_sum
                     (map (fun ym =>
                             Generic.mul (Generic.mul (snd ym) (fst ym))
                               (Generic.sub (Generic.of_int 1) (fst ym)))
                        prior))))
          prior).
Proof.
  unfold Generic.posterior_cell, Generic.likelihood_heads, Generic.likelihood_tails,
    Generic.rsub.
  rewrite <- (map_id (Generic.index prior)) at 1.
  rewrite generic_mul_factor. cbn [bind].
  set (t := map (fun xm : F * F => (fst xm, Generic.mul (snd xm) (fst xm))) prior).
  assert (I : Generic.index prior = Generic.index t).
  { unfold Generic.index, t. rewrite map_map. reflexivity. }
  rewrite I, generic_mul_factor. cbn [bind]. apply f_equal.
  unfold Generic.truediv, Generic.sum, Generic.values, t.
  rewrite !map_map. apply map_ext. now intros [x m].
Qed.

(** C1.  In every arithmetic (float64 with its rounding, underflow and
    overflow included), for every prior Series over the grid and every
    sequence of (label, count) outcomes, the update raises nothing and
    returns the Series over the same grid whose mass at each grid point x
    is the prior mass at x multiplied, for every outcome in turn, by
    likelihood(label, x) ** count, divided by the sum of those products
    over all grid points: the unnormalised posterior is formed point by
    point and then normalised.  The cell with counts (cells 21 and 22) is
    this update with the two outcomes heads and tails, and the cell
    without counts (cell 10) returns prior * x * (1 - x) at every grid
    point, divided by the sum of these. *)
Theorem update_pointwise_product_normalized :
  forall (F : Type) (A : Generic.Ops F) (xs : list F) (prior : Generic.Series F)
         (outcomes : list (outcome * nat)),
    Generic.index prior = xs ->
    Generic.update xs prior outcomes
    = Ok (map (fun xm =>
                 (fst xm,
                  Generic.div (Generic.unnormalized outcomes (fst xm) (snd xm))
                    (Generic.reduce_sum
                       (map (fun ym => Generic.unnormalized outcomes (fst ym) (snd ym))
                          prior))))
            prior)
    /\ (forall h t : nat,
          Generic.posterior_counts_cell xs prior h t
          = Generic.update xs prior [(Heads, h); (Tails, t)])
    /\ Generic.posterior_cell xs prior
       = Ok (map (fun xm =>
                    (fst xm,
                     Generic.div
                       (Generic.mul (Generic.mul (snd xm) (fst xm))
                          (Generic.sub (Generic.of_int 1) (fst xm)))
                       (Generic.reduce_sum
                          (map (fun ym =>
                                  Generic.mul (Generic.mul (snd ym) (fst ym))
                                    (Generic.sub (Generic.of_int 1) (fst ym)))
                             prior))))
               prior).
Proof.
  intros F A xs prior outcomes <-. split; [|split].
  - apply generic_update_closed.
  - intros h t. apply generic_posterior_counts_cell_update.
  - apply generic_posterior_cell_closed.
Qed.

Lemma update_pointwise_product_normalized_witness :
  Generic.update (A:=Binary64.ops) Binary64.quarters_grid Binary64.quarters_prior
    [(Heads, 2%nat); (Tails, 1%nat)]
  = Ok (map (fun xm =>
               (fst xm,
                Generic.div
                  (Generic.unnormalized [(Heads, 2%nat); (Tails, 1%nat)]
                     (fst xm) (snd xm))
                  (Generic.reduce_sum
                     (map (fun ym =>
                             Generic.unnormalized [(Heads, 2%nat); (Tails, 1%nat)]
                               (fst ym) (snd ym))
                        Binary64.quarters_prior))))
          Binary64.quarters_prior).
Proof.
  apply (@update_pointwise_product_normalized float Binary64.ops
           Binary64.quarters_grid Binary64.quarters_prior
           [(Heads, 2%nat); (Tails, 1%nat)]).
  reflexivity.
Defined.

(* ------------------------------------------------------------------ *)
(** *** The notebook in binary64 *)

(** Cells 4 and 10 run on the machine's floats.  The uniform prior sums
    to 0.9999999999999999 and its running totals end at
    1.0000000000000007; the posterior after one heads and one tails sums
    to 0.9999999999999998 and has the mean 0.4999999999999999. *)
Example Euro_posterior_binary64 :
  Generic.sum Binary64.prior = 0x1.fffffffffffffp-1%float
  /\ last (Generic.cumsum Binary64.prior) 0%float = 0x1.0000000000003p+0%float
  /\ exists posterior : Generic.Series float,
       Generic.posterior_cell Binary64.xs Binary64.prior = Ok posterior
       /\ Generic.sum posterior = 0x1.ffffffffffffep-1%float
       /\ Generic.pmf_mean posterior = 0x1.ffffffffffffep-2%float.
Proof.
  split; [vm_compute; reflexivity|].
  split; [vm_compute; reflexivity|].
  eexists. split; [vm_compute; reflexivity|].
  split; [vm_compute; reflexivity|].
  vm_compute. reflexivity.
Qed.

(** Cell 17 on the machine's floats: the triangle prior sums to 1. *)
Example Euro_triangle_binary64 :
  exists triangle : Generic.Series float,
    Generic.triangle Binary64.xs = Ok triangle
    /\ Generic.sum triangle = 1%float.
Proof.
  eexists. split; [vm_compute; reflexivity|].
  vm_compute. reflexivity.
Qed.

(* ------------------------------------------------------------------ *)
(** *** The exact instance *)

(** The cells over [num] are the cells of [Generic] at [exact_ops]. *)
Lemma update_exact_instance (xs : list num) (prior : Pd.Series)
    (outcomes : list (outcome * nat)) :
  Generic.update (A:=exact_ops) xs prior outcomes = update xs prior outcomes.
Proof. reflexivity. Qed.

Lemma update_each_exact_instance (xs : list num) (outcomes : list (outcome * nat)) :
  forall prior : Pd.Series,
    Generic.update_each (A:=exact_ops) xs prior outcomes
    = update_each xs prior outcomes.
Proof.
  induction outcomes as [|oc rest IH]; intro prior; [reflexivity|].
  cbn [Generic.update_each update_each].
  rewrite update_exact_instance.
  destruct (update xs prior [oc]) as [s|e]; [apply IH | reflexivity].
Qed.

Lemma posterior_cell_exact_instance (xs : list num) (prior : Pd.Series) :
  Generic.posterior_cell (A:=exact_ops) xs prior = posterior_cell xs prior.
Proof. reflexivity. Qed.

Lemma posterior_counts_cell_exact_instance (xs : list num) (prior : Pd.Series)
    (h t : nat) :
  Generic.posterior_counts_cell (A:=exact_ops) xs prior h t
  = posterior_counts_cell xs prior h t.
Proof. reflexivity. Qed.

Lemma linspace_exact_instance :
  Generic.linspace (A:=exact_ops) (of_Z 0) (of_Z 1) 101 = Euro.xs.
Proof. apply nums_eqb_eq. vm_compute. reflexivity. Qed.

Lemma triangle_exact_instance :
  exists t : Pd.Series,
    Euro.triangle = Ok t /\ Generic.triangle (A:=exact_ops) Euro.xs = Ok t.
Proof.
  eexists. split; [vm_compute; reflexivity|].
  apply returns_series_eq. vm_compute. reflexivity.
Qed.

(* ------------------------------------------------------------------ *)
(** *** No outcomes *)


(* ------------------------------------------------------------------ *)
(** *** Zero total mass *)

Lemma Qcsum_all_zero (l : list Qc) : (forall q, In q l -> q = 0) -> Qcsum l = 0.
Proof.
  induction l as [|q l IH]; intro H; simpl; [reflexivity|].
  rewrite (H q (or_introl eq_refl)), IH, Qcplus_0_l; [reflexivity|].
  intros q' Hq'. apply H. now right.
Qed.

Lemma divided_all_zero (g : pmf) :
  (forall xm, In xm g -> snd xm = 0) ->
  divided g (total g) = map (fun xm => (Fin (fst xm), NaN)) g.
Proof.
  intro H. unfold divided, total. rewrite Qcsum_all_zero.
  - apply map_ext_in. intros xm Hin. now rewrite (H xm Hin).
  - intros q Hq. apply in_map_iff in Hq. destruct Hq as [xm [<- Hin]].
    now apply H.
Qed.




(* ------------------------------------------------------------------ *)
(** *** Order and field facts on rationals *)

Lemma Qc_eq_Q (a b : Qc) : a = b <-> (this a == this b)%Q.
Proof. split; [now intros -> | apply Qc_is_canon]. Qed.

(** Goals on [Qc] read as goals on [Q], for [lra] and [nra]. *)
Ltac qc_unfold :=
  unfold Qcle, Qclt, Qcminus, Qcdiv, Qcplus, Qcmult, Qcopp, Q2Qc in *;
  cbn [this] in *;
  repeat (setoid_rewrite Qred_correct);
  repeat match goal with
    | H : _ |- _ => progress (setoid_rewrite Qred_correct in H)
    end.

Ltac qc_prepare :=
  intros;
  repeat match goal with
    | H : @eq Qc _ _ |- _ => apply Qc_eq_Q in H
    | |- @eq Qc _ _ => apply Qc_eq_Q
    | H : ~ @eq Qc _ _ |- _ => rewrite Qc_eq_Q in H
    end;
  qc_unfold.

Ltac qc_lra := qc_prepare; lra.
Ltac qc_nra := qc_prepare; nra.

Lemma Qcsum_div (l : list Qc) (t : Qc) :
  Qcsum (map (fun m => m / t) l) = Qcsum l / t.
Proof.
  induction l as [|m l IH]; simpl.
  - unfold Qcdiv. now rewrite Qcmult_0_l.
  - rewrite IH. unfold Qcdiv. now rewrite Qcmult_plus_distr_l.
Qed.

Lemma Qclt_neq_0 (t : Qc) : 0 < t -> t <> 0.
Proof. intros H E. subst t. revert H. apply Qcle_not_lt, Qcle_refl. Qed.

Lemma Qcsum_nonneg (l : list Qc) : (forall q, In q l -> 0 <= q) -> 0 <= Qcsum l.
Proof.
  induction l as [|q l IH]; intro H; simpl; [apply Qcle_refl|].
  assert (0 <= q) by (apply H; now left).
  assert (0 <= Qcsum l) by (apply IH; intros; apply H; now right).
  qc_lra.
Qed.

Lemma Qcsum_pos (l : list Qc) (q : Qc) :
  (forall q', In q' l -> 0 <= q') -> In q l -> 0 < q -> 0 < Qcsum l.
Proof.
  induction l as [|a l IH]; intros H Hin Hq; simpl; [destruct Hin|].
  assert (Ha : 0 <= a) by (apply H; now left).
  assert (Hl : 0 <= Qcsum l) by (apply Qcsum_nonneg; intros; apply H; now right).
  destruct Hin as [-> | Hin]; [qc_lra|].
  assert (0 < Qcsum l) by (apply IH; auto; intros; apply H; now right).
  qc_lra.
Qed.

Lemma Qcsum_zero_all_zero (l : list Qc) :
  (forall q, In q l -> 0 <= q) -> Qcsum l = 0 -> forall q, In q l -> q = 0.
Proof.
  intros H E q Hin.
  destruct (Qcle_lt_or_eq _ _ (H q Hin)) as [L | <-]; [|reflexivity].
  pose proof (Qcsum_pos l H Hin L) as P. rewrite E in P.
  exfalso. revert P. apply Qcle_not_lt, Qcle_refl.
Qed.

Lemma Qcmult_nonneg (a b : Qc) : 0 <= a -> 0 <= b -> 0 <= a * b.
Proof. qc_nra. Qed.

(* ------------------------------------------------------------------ *)
(** *** Non-negative masses *)

Lemma likelihood_nonneg (o : outcome) (x : Qc) :
  0 <= x -> x <= 1 -> 0 <= likelihood o x.
Proof. destruct o; simpl; qc_lra. Qed.

Lemma likelihood_product_nonneg (outcomes : list (outcome * nat)) (x : Qc) :
  0 <= x -> x <= 1 -> 0 <= likelihood_product outcomes x.
Proof.
  intros H0 H1. induction outcomes as [|[o c] rest IH]; simpl; [qc_lra|].
  apply Qcmult_nonneg; [|assumption].
  apply Qcpower_pos. now apply likelihood_nonneg.
Qed.

Lemma weighted_valid (outcomes : list (outcome * nat)) (f : pmf) :
  valid_pmf f -> valid_pmf (weighted outcomes f).
Proof.
  unfold valid_pmf, weighted. intro H. apply Forall_map.
  eapply Forall_impl; [|exact H].
  intros [x m] (H0 & H1 & Hm). repeat split; simpl in *; try assumption.
  apply Qcmult_nonneg; [assumption|]. now apply likelihood_product_nonneg.
Qed.

Lemma valid_masses_nonneg (f : pmf) :
  valid_pmf f -> forall q, In q (map snd f) -> 0 <= q.
Proof.
  intros H q Hq. apply in_map_iff in Hq. destruct Hq as [xm [<- Hin]].
  unfold valid_pmf in H. rewrite Forall_forall in H. now apply H.
Qed.

Lemma divided_nonzero (f : pmf) (t : Qc) :
  t <> 0 -> divided f t = of_finite (scaled f t).
Proof.
  intro H. unfold divided, of_finite, scaled. rewrite map_map.
  apply map_ext. intros [x m]. simpl.
  apply Qceqb_false_iff in H. now rewrite H.
Qed.

Lemma total_scaled (f : pmf) (t : Qc) : total (scaled f t) = total f / t.
Proof.
  unfold total, scaled. rewrite map_map. simpl.
  rewrite <- Qcsum_div, map_map. reflexivity.
Qed.

(* ------------------------------------------------------------------ *)
(** *** The triangle prior *)

Lemma combine_fst {X Y : Type} (l : list X) :
  forall l' : list Y, length l = length l' -> map fst (combine l l') = l.
Proof.
  induction l as [|a l IH]; intros [|b l'] L; try discriminate L; [reflexivity|].
  simpl. f_equal. apply IH. simpl in L. lia.
Qed.

Lemma combine_snd {X Y : Type} (l : list X) :
  forall l' : list Y, length l = length l' -> map snd (combine l l') = l'.
Proof.
  induction l as [|a l IH]; intros [|b l'] L; try discriminate L; [reflexivity|].
  simpl. f_equal. apply IH. simpl in L. lia.
Qed.

Lemma map_combine_snd {X Y Z : Type} (g : Y -> Z) (l : list X) :
  forall l' : list Y,
    map (fun '(x, k) => (x, g k)) (combine l l') = combine l (map g l').
Proof.
  induction l as [|a l IH]; intros [|b l']; try reflexivity.
  simpl. now rewrite IH.
Qed.

(** Cell 15: the weights are 0..49 followed by 50..0; their sum is
    2500. *)
Lemma Euro_ps_mirrored :
  exists ps : list Z,
    Euro.ps = Ok ps /\ length ps = 101%nat /\ mirrored_Z ps = true
    /\ fold_left Z.add ps 0%Z = 2500%Z.
Proof.
  eexists. split; [vm_compute; reflexivity|]. repeat split; reflexivity.
Qed.

Lemma generic_linspace_length {F : Type} {A : Generic.Ops F} :
  length (Generic.linspace (Generic.of_int 0) (Generic.of_int 1) 101) = 101%nat.
Proof.
  unfold Generic.linspace.
  destruct (Generic.exact _) as [q| |]; [destruct (Qceqb q 0)| |]; reflexivity.
Qed.

(** The triangle prior in closed form: weight k becomes k divided by the
    integer sum of the weights. *)
Lemma generic_triangle_closed {F : Type} {A : Generic.Ops F}
    (xs : list F) (ps : list Z) :
  Euro.ps = Ok ps -> length ps = length xs ->
  Generic.triangle xs
  = Ok (combine xs
          (map (fun k => Generic.div (Generic.of_int k)
                           (Generic.of_int (fold_left Z.add ps 0%Z))) ps)).
Proof.
  intros E L. unfold Generic.triangle, Generic.Series_data.
  rewrite E. cbn [bind]. rewrite L, Nat.eqb_refl. cbn [bind].
  rewrite combine_snd by now symmetry.
  apply f_equal. apply map_combine_snd.
Qed.

(** C10, counterexample.  On the notebook's grid in binary64 the grid
    point x_(100-i) is not always 1 - x_i: x_95 is 0.9500000000000001
    while 1 - x_5 is 0.95, which is no grid point at all; the two differ
    at 44 of the 101 positions.  So the mass at [1 - x] is not defined
    for such an x, and the symmetry cannot be read on the labels. *)
Lemma triangle_grid_not_complementary_counterexample :
  length Binary64.xs = 101%nat
  /\ nth 95 Binary64.xs 0%float = 0x1.e666666666667p-1%float
  /\ (1 - nth 5 Binary64.xs 0)%float = 0x1.e666666666666p-1%float
  /\ existsb (PrimFloat.eqb (1 - nth 5 Binary64.xs 0)%float) Binary64.xs = false
  /\ length (filter (fun i => negb (PrimFloat.eqb (nth (100 - i) Binary64.xs 0%float)
                                      (1 - nth i Binary64.xs 0)%float))
               (seq 0 101))
     = 44%nat.
Proof.
  split; [vm_compute; reflexivity|].
  split; [vm_compute; reflexivity|].
  split; [vm_compute; reflexivity|].
  split; vm_compute; reflexivity.
Qed.

(** C10, amended.  In every arithmetic, the triangle prior built on the
    notebook's 101-point grid from the ramp 0..49 followed by the ramp
    50..0 is symmetric about the middle position: the weight vector has
    101 entries, as many as the grid; the Series has the grid as its
    index; and for every i in 0..100 the weights at positions i and
    100 - i are the same integer w, and the normalised masses at the
    grid points x_i and x_(100-i) are both w / 2500. *)
Theorem triangle_prior_symmetric :
  forall (F : Type) (A : Generic.Ops F),
    exists (ps : list Z) (triangle : Generic.Series F),
      Euro.ps = Ok ps
      /\ Generic.triangle (Generic.linspace (Generic.of_int 0) (Generic.of_int 1) 101)
         = Ok triangle
      /\ length ps = 101%nat
      /\ length triangle = 101%nat
      /\ Generic.index triangle
         = Generic.linspace (Generic.of_int 0) (Generic.of_int 1) 101
      /\ forall i : nat,
           (i <= 100)%nat ->
           exists w : Z,
             nth_error ps i = Some w
             /\ nth_error ps (100 - i) = Some w
             /\ nth_error (Generic.values triangle) i
                = Some (Generic.div (Generic.of_int w) (Generic.of_int 2500))
             /\ nth_error (Generic.values triangle) (100 - i)
                = Some (Generic.div (Generic.of_int w) (Generic.of_int 2500)).
Proof.
  intros F A.
  destruct Euro_ps_mirrored as (ps & E & L & M & T).
  pose proof (@generic_linspace_length F A) as Lx.
  set (xs := Generic.linspace (Generic.of_int 0) (Generic.of_int 1) 101) in *.
  set (g := fun k => Generic.div (Generic.of_int k) (Generic.of_int 2500)).
  assert (Lg : length xs = length (map g ps)) by (rewrite length_map; congruence).
  exists ps, (combine xs (map g ps)).
  split; [exact E|].
  split; [rewrite (generic_triangle_closed xs E), T by congruence; reflexivity|].
  split; [exact L|].
  split; [rewrite length_combine, length_map, Lx, L; reflexivity|].
  split; [now apply combine_fst|].
  intros i Hi.
  unfold Generic.values. rewrite combine_snd by exact Lg.
  assert (W : nth i ps 0%Z = nth (100 - i) ps 0%Z).
  { unfold mirrored_Z in M. rewrite forallb_forall in M.
    apply Z.eqb_eq, M, in_seq. lia. }
  exists (nth i ps 0%Z).
  assert (N1 : nth_error ps i = Some (nth i ps 0%Z))
    by (apply nth_error_nth'; lia).
  assert (N2 : nth_error ps (100 - i) = Some (nth i ps 0%Z))
    by (rewrite W; apply nth_error_nth'; lia).
  split; [exact N1|]. split; [exact N2|].
  split; rewrite nth_error_map; [now rewrite N1 | now rewrite N2].
Qed.

(* ------------------------------------------------------------------ *)
(** *** Credible intervals *)

Lemma credible_interval_returns (s : Pd.Series) (prob : num) :
  (2 <= length s)%nat ->
  credible_interval s prob
  = Ok (Scipy.interp1d_call (Pd.cumsum s) (Pd.index s)
          (hd NaN (Pd.index s)) (last (Pd.index s) NaN)
          (ndiv (nsub (of_Z 1) prob) (of_Z 2)),
        Scipy.interp1d_call (Pd.cumsum s) (Pd.index s)
          (hd NaN (Pd.index s)) (last (Pd.index s) NaN)
          (nsub (of_Z 1) (ndiv (nsub (of_Z 1) prob) (of_Z 2)))).
Proof.
  intro L. unfold credible_interval.
  assert (Lc : forall acc l, length (Pd.cumsum_from acc l) = length l).
  { intros acc l. revert acc. induction l as [|v l IH]; intro acc; simpl;
      [reflexivity|]. destruct (is_nan v); simpl; now rewrite IH. }
  assert (Ly : length (Pd.cumsum s) = length (Pd.index s)).
  { unfold Pd.cumsum, Pd.index, Pd.values. now rewrite Lc, !length_map. }
  assert (Lx : length (Pd.index s) = length s) by apply length_map.
  destruct s as [|[x0 m0] s']; [simpl in L; lia|].
  cbn [Pd.index map fst bind].
  unfold Scipy.interp1d. rewrite Ly. cbn [Pd.index map fst].
  rewrite Nat.eqb_refl. cbn [negb].
  cbn [Pd.index map fst] in Lx. rewrite Lx.
  destruct (Nat.ltb_spec (length ((x0, m0) :: s')) 2) as [C|_]; [lia|].
  reflexivity.
Qed.

(** C5, counterexample.  On the uniform two-point PMF [credible_interval]
    with [prob = 3/2] raises nothing: it returns the pair (0, 1). *)
Lemma credible_interval_prob_unchecked_counterexample :
  ~ (Q2Qc (3 # 2) < 1)
  /\ credible_interval (of_finite coin2) (Fin (Q2Qc (3 # 2))) = Ok (Fin 0, Fin 1).
Proof.
  split.
  - apply Qcle_not_lt. apply Qcle_alt. vm_compute. discriminate.
  - vm_compute. reflexivity.
Qed.

(** C5, amended.  [credible_interval] does not validate [prob]: for
    every Series with at least two points and every [prob], inside (0, 1)
    or not, it raises no error and returns the pair of the interpolant's
    values at [(1 - prob) / 2] and [1 - (1 - prob) / 2]. *)
Theorem credible_interval_never_rejects_prob :
  forall (s : Pd.Series) (prob : num),
    (2 <= length s)%nat ->
    exists low high : num,
      credible_interval s prob = Ok (low, high)
      /\ low = Scipy.interp1d_call (Pd.cumsum s) (Pd.index s)
                 (hd NaN (Pd.index s)) (last (Pd.index s) NaN)
                 (ndiv (nsub (of_Z 1) prob) (of_Z 2))
      /\ high = Scipy.interp1d_call (Pd.cumsum s) (Pd.index s)
                  (hd NaN (Pd.index s)) (last (Pd.index s) NaN)
                  (nsub (of_Z 1) (ndiv (nsub (of_Z 1) prob) (of_Z 2))).
Proof.
  intros s prob L. eexists. eexists.
  split; [now apply credible_interval_returns|]. split; reflexivity.
Qed.

Lemma credible_interval_never_rejects_prob_witness :
  exists low high : num,
    credible_interval (of_finite coin2) (Fin (Q2Qc (3 # 2))) = Ok (low, high)
    /\ low = Scipy.interp1d_call (Pd.cumsum (of_finite coin2))
               (Pd.index (of_finite coin2))
               (hd NaN (Pd.index (of_finite coin2)))
               (last (Pd.index (of_finite coin2)) NaN)
               (ndiv (nsub (of_Z 1) (Fin (Q2Qc (3 # 2)))) (of_Z 2))
    /\ high = Scipy.interp1d_call (Pd.cumsum (of_finite coin2))
                (Pd.index (of_finite coin2))
                (hd NaN (Pd.index (of_finite coin2)))
                (last (Pd.index (of_finite coin2)) NaN)
                (nsub (of_Z 1) (ndiv (nsub (of_Z 1) (Fin (Q2Qc (3 # 2)))) (of_Z 2))).
Proof.
  apply (credible_interval_never_rejects_prob (of_finite coin2) (Fin (Q2Qc (3 # 2)))).
  simpl. lia.
Defined.

Lemma cumsum_from_finite (l : list Qc) (a : Qc) :
  Pd.cumsum_from (Fin a) (map Fin l) = map Fin (Qccumsum a l).
Proof.
  revert a. induction l as [|v l IH]; intro a; simpl; [reflexivity|].
  now rewrite IH.
Qed.

Lemma cumsum_finite (f : pmf) : Pd.cumsum (of_finite f) = map Fin (cdf f).
Proof.
  unfold Pd.cumsum, cdf. rewrite values_of_finite. apply cumsum_from_finite.
Qed.

Lemma Qccumsum_length (l : list Qc) (a : Qc) : length (Qccumsum a l) = length l.
Proof. revert a. induction l as [|v l IH]; intro a; simpl; congruence. Qed.

Lemma grid_of_map_fst (f : pmf) : grid_of f = map Fin (map fst f).
Proof. unfold grid_of. now rewrite map_map. Qed.

Lemma nsub_Fin (a b : Qc) : nsub (Fin a) (Fin b) = Fin (a - b).
Proof. reflexivity. Qed.

Lemma two_neq_0 : two <> 0.
Proof. intro H. apply Qceq_alt in H. discriminate H. Qed.

Lemma target_probabilities (prob : Qc) :
  ndiv (nsub (of_Z 1) (Fin prob)) (of_Z 2) = Fin (p_lo prob)
  /\ nsub (of_Z 1) (ndiv (nsub (of_Z 1) (Fin prob)) (of_Z 2)) = Fin (p_hi prob).
Proof.
  assert (E : ndiv (nsub (of_Z 1) (Fin prob)) (of_Z 2) = Fin (p_lo prob)).
  { change (of_Z 2) with (Fin two). change (of_Z 1) with (Fin 1).
    rewrite nsub_Fin. apply ndiv_Fin, two_neq_0. }
  split; [exact E|]. rewrite E. reflexivity.
Qed.

(** One segment of the interpolant: it stays between its end values and
    grows with the query. *)
Lemma segment_bounds (x0 x1 y0 y1 q : Qc) :
  x0 <= q -> q < x1 -> y0 <= y1 ->
  y0 <= (y1 - y0) / (x1 - x0) * (q - x0) + y0
  /\ (y1 - y0) / (x1 - x0) * (q - x0) + y0 <= y1.
Proof.
  intros H0 H1 Hy.
  assert (D : x1 - x0 <> 0) by (apply Qclt_neq_0; qc_lra).
  assert (E : (y1 - y0) / (x1 - x0) * (x1 - x0) = y1 - y0).
  { unfold Qcdiv. now rewrite <- Qcmult_assoc, Qcmult_inv_l, Qcmult_1_r. }
  revert E. generalize ((y1 - y0) / (x1 - x0)). intros s E.
  assert (S : 0 <= s).
  { apply Qcnot_lt_le. intro N.
    assert (s * (x1 - x0) < 0) by qc_nra. qc_lra. }
  split; qc_nra.
Qed.

Lemma segment_mono (x0 x1 y0 y1 q q' : Qc) :
  x0 <= q -> q <= q' -> q' < x1 -> y0 <= y1 ->
  (y1 - y0) / (x1 - x0) * (q - x0) + y0
  <= (y1 - y0) / (x1 - x0) * (q' - x0) + y0.
Proof.
  intros H0 H1 H2 Hy.
  assert (D : x1 - x0 <> 0) by (apply Qclt_neq_0; qc_lra).
  assert (E : (y1 - y0) / (x1 - x0) * (x1 - x0) = y1 - y0).
  { unfold Qcdiv. now rewrite <- Qcmult_assoc, Qcmult_inv_l, Qcmult_1_r. }
  revert E. generalize ((y1 - y0) / (x1 - x0)). intros s E.
  assert (S : 0 <= s).
  { apply Qcnot_lt_le. intro N.
    assert (s * (x1 - x0) < 0) by qc_nra. qc_lra. }
  qc_nra.
Qed.

Lemma hd_le_last (l : list Qc) : nondecreasing l -> hd 0 l <= last l 0.
Proof.
  induction l as [|a [|b t] IH]; intro H; try apply Qcle_refl.
  destruct H as [Hab Ht]. specialize (IH Ht).
  change (a <= last (b :: t) 0). simpl hd in IH.
  eapply Qcle_trans; eassumption.
Qed.

Lemma Qinterp_linear_step (x0 x1 y0 y1 : Qc) (xt yt : list Qc) (q : Qc) :
  Qinterp_linear (x0 :: x1 :: xt) (y0 :: y1 :: yt) q
  = if Qcltb q x1 then (y1 - y0) / (x1 - x0) * (q - x0) + y0
    else Qinterp_linear (x1 :: xt) (y1 :: yt) q.
Proof. reflexivity. Qed.

Lemma Qinterp_linear_bounds (x : list Qc) :
  forall (y : list Qc) (q : Qc),
    length x = length y -> nondecreasing x -> nondecreasing y ->
    x <> [] -> hd 0 x <= q ->
    hd 0 y <= Qinterp_linear x y q /\ Qinterp_linear x y q <= last y 0.
Proof.
  induction x as [|x0 [|x1 xt] IH]; intros y q L Sx Sy N H; [congruence| |].
  - destruct y as [|y0 [|y1 yt]]; try discriminate L.
    simpl. split; apply Qcle_refl.
  - destruct y as [|y0 [|y1 yt]]; try discriminate L.
    destruct Sx as [Hx Sx]. destruct Sy as [Hy Sy].
    rewrite Qinterp_linear_step. simpl hd in H |- *.
    change (last (y0 :: y1 :: yt) 0) with (last (y1 :: yt) 0).
    destruct (Qcltb q x1) eqn:C.
    + apply Qcltb_true_iff in C.
      destruct (segment_bounds (x0:=x0) (x1:=x1) (y0:=y0) (y1:=y1) (q:=q)) as [B1 B2];
        try assumption.
      split; [exact B1|].
      eapply Qcle_trans; [exact B2|]. now apply (hd_le_last (y1 :: yt)).
    + apply Qcltb_false_iff in C.
      destruct (IH (y1 :: yt) q) as [B1 B2]; try assumption;
        [simpl in L |- *; lia | discriminate |].
      split; [|exact B2]. simpl hd in B1. eapply Qcle_trans; eassumption.
Qed.

Lemma Qinterp_linear_mono (x : list Qc) :
  forall (y : list Qc) (q q' : Qc),
    length x = length y -> nondecreasing x -> nondecreasing y ->
    x <> [] -> hd 0 x <= q -> q <= q' ->
    Qinterp_linear x y q <= Qinterp_linear x y q'.
Proof.
  induction x as [|x0 [|x1 xt] IH]; intros y q q' L Sx Sy N H Hq; [congruence| |].
  - destruct y as [|y0 [|y1 yt]]; try discriminate L. simpl. apply Qcle_refl.
  - destruct y as [|y0 [|y1 yt]]; try discriminate L.
    destruct Sx as [Hx Sx]. destruct Sy as [Hy Sy].
    rewrite !Qinterp_linear_step. simpl hd in H.
    assert (L' : length (x1 :: xt) = length (y1 :: yt)) by (simpl in L |- *; lia).
    destruct (Qcltb q x1) eqn:C; destruct (Qcltb q' x1) eqn:C'.
    + apply Qcltb_true_iff in C'. now apply segment_mono.
    + apply Qcltb_true_iff in C. apply Qcltb_false_iff in C'.
      destruct (segment_bounds (x0:=x0) (x1:=x1) (y0:=y0) (y1:=y1) (q:=q)) as [_ B2];
        try assumption.
      destruct (Qinterp_linear_bounds (x:=x1 :: xt) (y1 :: yt) (q:=q')) as [B1 _];
        try assumption; [discriminate|].
      simpl hd in B1. eapply Qcle_trans; eassumption.
    + apply Qcltb_false_iff in C. apply Qcltb_true_iff in C'.
      exfalso. revert C'. apply Qcle_not_lt. eapply Qcle_trans; eassumption.
    + apply Qcltb_false_iff in C. apply IH; try assumption. discriminate.
Qed.

Lemma Qinterp_bounds (x y : list Qc) (q : Qc) :
  length x = length y -> nondecreasing x -> nondecreasing y -> x <> [] ->
  hd 0 y <= Qinterp x y q /\ Qinterp x y q <= last y 0.
Proof.
  intros L Sx Sy N. unfold Qinterp.
  pose proof (hd_le_last y Sy) as HL.
  destruct (Qcltb q (hd 0 x)) eqn:C; [split; [apply Qcle_refl | exact HL]|].
  destruct (Qcltb (last x 0) q) eqn:C'; [split; [exact HL | apply Qcle_refl]|].
  apply Qcltb_false_iff in C. now apply Qinterp_linear_bounds.
Qed.

Lemma Qinterp_mono (x y : list Qc) (q q' : Qc) :
  length x = length y -> nondecreasing x -> nondecreasing y -> x <> [] ->
  q <= q' -> Qinterp x y q <= Qinterp x y q'.
Proof.
  intros L Sx Sy N Hq.
  destruct (@Qinterp_bounds x y q' L Sx Sy N) as [B1 B2].
  unfold Qinterp in *.
  destruct (Qcltb q (hd 0 x)) eqn:C; [exact B1|].
  apply Qcltb_false_iff in C.
  assert (C1 : Qcltb q' (hd 0 x) = false).
  { apply Qcltb_false_iff. eapply Qcle_trans; eassumption. }
  rewrite C1 in *.
  destruct (Qcltb (last x 0) q) eqn:D.
  - apply Qcltb_true_iff in D.
    assert (D1 : Qcltb (last x 0) q' = true).
    { apply Qcltb_true_iff. eapply Qclt_le_trans; eassumption. }
    rewrite D1. apply Qcle_refl.
  - destruct (Qcltb (last x 0) q') eqn:D'.
    + now apply Qinterp_linear_bounds.
    + now apply Qinterp_linear_mono.
Qed.

Lemma interp_linear_finite (x : list Qc) :
  forall (y : list Qc) (q : Qc),
    length x = length y -> x <> [] -> hd 0 x <= q ->
    Scipy.interp_linear (map Fin x) (map Fin y) (Fin q)
    = Fin (Qinterp_linear x y q).
Proof.
  induction x as [|x0 [|x1 xt] IH]; intros y q L N H; [congruence| |].
  - destruct y as [|y0 [|y1 yt]]; try discriminate L. reflexivity.
  - destruct y as [|y0 [|y1 yt]]; try discriminate L.
    rewrite Qinterp_linear_step. simpl hd in H.
    change (Scipy.interp_linear (map Fin (x0 :: x1 :: xt))
              (map Fin (y0 :: y1 :: yt)) (Fin q))
      with (if Qcltb q x1
            then nadd (nmul (ndiv (nsub (Fin y1) (Fin y0)) (nsub (Fin x1) (Fin x0)))
                         (nsub (Fin q) (Fin x0))) (Fin y0)
            else Scipy.interp_linear (map Fin (x1 :: xt)) (map Fin (y1 :: yt)) (Fin q)).
    destruct (Qcltb q x1) eqn:C.
    + apply Qcltb_true_iff in C. rewrite !nsub_Fin, ndiv_Fin; [reflexivity|].
      apply Qclt_neq_0. qc_lra.
    + apply Qcltb_false_iff in C. apply IH;
        [simpl in L |- *; lia | discriminate | exact C].
Qed.

Lemma hd_map_Fin (l : list Qc) : l <> [] -> hd NaN (map Fin l) = Fin (hd 0 l).
Proof. destruct l; [congruence | reflexivity]. Qed.

Lemma last_map_Fin (l : list Qc) : l <> [] -> last (map Fin l) NaN = Fin (last l 0).
Proof.
  induction l as [|a [|b t] IH]; intro N; [congruence | reflexivity |].
  change (last (map Fin (b :: t)) NaN = Fin (last (b :: t) 0)).
  apply IH. discriminate.
Qed.

Lemma interp1d_call_finite (x y : list Qc) (q : Qc) :
  length x = length y -> x <> [] ->
  Scipy.interp1d_call (map Fin x) (map Fin y) (Fin (hd 0 y)) (Fin (last y 0)) (Fin q)
  = Fin (Qinterp x y q).
Proof.
  intros L N. unfold Scipy.interp1d_call, Qinterp, ngtb.
  rewrite hd_map_Fin, last_map_Fin by assumption.
  cbn [is_nan nltb].
  destruct (Qcltb q (hd 0 x)) eqn:C; [reflexivity|].
  destruct (Qcltb (last x 0) q) eqn:D; [reflexivity|].
  apply Qcltb_false_iff in C. now apply interp_linear_finite.
Qed.

Lemma Qccumsum_nondecreasing (l : list Qc) :
  forall a : Qc, (forall m, In m l -> 0 <= m) -> nondecreasing (Qccumsum a l).
Proof.
  induction l as [|v [|w l] IH]; intros a H; try exact I.
  change (a + v <= a + v + w /\ nondecreasing (Qccumsum (a + v) (w :: l))).
  split.
  - assert (0 <= w) by (apply H; right; now left). qc_lra.
  - apply IH. intros m Hm. apply H. now right.
Qed.

(** The interval returned for a finite PMF, in closed form. *)
Lemma credible_interval_finite (f : pmf) (prob : Qc) :
  (2 <= length f)%nat ->
  credible_interval (of_finite f) (Fin prob)
  = Ok (Fin (inverse_cdf f (p_lo prob)), Fin (inverse_cdf f (p_hi prob))).
Proof.
  intro L.
  assert (N : map fst f <> []) by (destruct f; [simpl in L; lia | discriminate]).
  assert (Lc : length (cdf f) = length (map fst f)).
  { unfold cdf. now rewrite Qccumsum_length, !length_map. }
  assert (Nc : cdf f <> []).
  { intro E. rewrite E in Lc. destruct (map fst f); [congruence | discriminate]. }
  rewrite credible_interval_returns by (now rewrite of_finite_length).
  destruct (target_probabilities prob) as [-> ->].
  rewrite cumsum_finite, index_of_finite, grid_of_map_fst.
  rewrite hd_map_Fin, last_map_Fin by assumption.
  rewrite !interp1d_call_finite by assumption.
  reflexivity.
Qed.

(** C4, counterexample.  The uniform prior on the grid [0, 1] updated
    with one tails is the normalised PMF with all mass at 0; its 90%
    credible interval is the pair (0, 0), so [low < high] fails. *)
Lemma credible_interval_low_equals_high_counterexample :
  update (grid_of coin2) (of_finite coin2) [(Tails, 1%nat)] = Ok (of_finite point_mass2)
  /\ Pd.sum (of_finite point_mass2) = Fin 1
  /\ credible_interval (of_finite point_mass2) (Fin (Q2Qc (9 # 10)))
     = Ok (Fin 0, Fin 0)
  /\ ~ (0 < 0).
Proof.
  split; [apply returns_series_eq; vm_compute; reflexivity|].
  split; [apply num_eqb_eq; vm_compute; reflexivity|].
  split; [vm_compute; reflexivity|].
  apply Qcle_not_lt, Qcle_refl.
Qed.

Lemma segment_strict (x0 x1 y0 y1 q q' : Qc) :
  x0 <= q -> q < q' -> q' <= x1 -> y0 < y1 ->
  (y1 - y0) / (x1 - x0) * (q - x0) + y0
  < (y1 - y0) / (x1 - x0) * (q' - x0) + y0
  /\ (y1 - y0) / (x1 - x0) * (q' - x0) + y0 <= y1.
Proof.
  intros H0 H1 H2 Hy.
  assert (D : x1 - x0 <> 0) by (apply Qclt_neq_0; qc_lra).
  assert (E : (y1 - y0) / (x1 - x0) * (x1 - x0) = y1 - y0).
  { unfold Qcdiv. now rewrite <- Qcmult_assoc, Qcmult_inv_l, Qcmult_1_r. }
  revert E. generalize ((y1 - y0) / (x1 - x0)). intros s E.
  assert (S : 0 < s).
  { apply Qcnot_le_lt. intro N.
    assert (s * (x1 - x0) <= 0) by qc_nra. qc_lra. }
  split; qc_nra.
Qed.

Lemma hd_lt_last (l : list Qc) :
  (2 <= length l)%nat -> increasing l -> hd 0 l < last l 0.
Proof.
  intros L I.
  destruct l as [|a [|b t]]; try (simpl in L; lia).
  destruct I as [Hab It].
  apply Qclt_le_trans with b; [exact Hab|].
  change (hd 0 (b :: t) <= last (b :: t) 0).
  apply hd_le_last. now apply increasing_nondecreasing.
Qed.

(** Above the first knot the interpolant is above the first value. *)
Lemma Qinterp_linear_gt_hd (x : list Qc) :
  forall (y : list Qc) (q : Qc),
    length x = length y -> nondecreasing x -> increasing y ->
    hd 0 x < q -> q <= last x 0 ->
    hd 0 y < Qinterp_linear x y q.
Proof.
  induction x as [|x0 [|x1 xt] IH]; intros y q L Sx Sy H H'.
  - simpl in H, H'. exfalso. revert H. now apply Qcle_not_lt.
  - simpl in H, H'. exfalso. revert H. now apply Qcle_not_lt.
  - destruct y as [|y0 [|y1 yt]]; try discriminate L.
    destruct Sx as [Hx Sx]. destruct Sy as [Hy Sy].
    rewrite Qinterp_linear_step. simpl hd in H |- *.
    destruct (Qcltb q x1) eqn:C.
    + apply Qcltb_true_iff in C.
      destruct (@segment_strict x0 x1 y0 y1 x0 q) as [B _];
        try assumption; [apply Qcle_refl | now apply Qclt_le_weak|].
      revert B. generalize ((y1 - y0) / (x1 - x0)). intros s B. qc_lra.
    + apply Qcltb_false_iff in C.
      destruct (@Qinterp_linear_bounds (x1 :: xt) (y1 :: yt) q) as [B1 _];
        try assumption;
        [simpl in L |- *; lia | now apply increasing_nondecreasing | discriminate|].
      simpl hd in B1. eapply Qclt_le_trans; eassumption.
Qed.

(** Under the last knot the interpolant is under the last value. *)
Lemma Qinterp_linear_lt_last (x : list Qc) :
  forall (y : list Qc) (q : Qc),
    length x = length y -> nondecreasing x -> increasing y ->
    hd 0 x <= q -> q < last x 0 ->
    Qinterp_linear x y q < last y 0.
Proof.
  induction x as [|x0 [|x1 xt] IH]; intros y q L Sx Sy H H'.
  - simpl in H, H'. exfalso. revert H'. now apply Qcle_not_lt.
  - simpl in H, H'. exfalso. revert H'. now apply Qcle_not_lt.
  - destruct y as [|y0 [|y1 yt]]; try discriminate L.
    destruct Sx as [Hx Sx]. destruct Sy as [Hy Sy].
    rewrite Qinterp_linear_step. simpl hd in H.
    change (last (x0 :: x1 :: xt) 0) with (last (x1 :: xt) 0) in H'.
    change (last (y0 :: y1 :: yt) 0) with (last (y1 :: yt) 0).
    assert (L' : length (x1 :: xt) = length (y1 :: yt)) by (simpl in L |- *; lia).
    destruct (Qcltb q x1) eqn:C.
    + apply Qcltb_true_iff in C.
      assert (M : exists q', q < q' /\ q' < x1).
      { exists ((q + x1) / two).
        assert (E : (q + x1) / two * two = q + x1).
        { unfold Qcdiv. rewrite <- Qcmult_assoc, Qcmult_inv_l, Qcmult_1_r;
            [reflexivity | apply two_neq_0]. }
        revert E. generalize ((q + x1) / two). intros h E.
        assert (T : two = 1 + 1) by (apply Qc_is_canon; reflexivity).
        rewrite T in E. split; qc_lra. }
      destruct M as (q' & M1 & M2).
      destruct (@segment_strict x0 x1 y0 y1 q q') as [B1 B2];
        try assumption; [now apply Qclt_le_weak|].
      apply Qclt_le_trans with y1.
      * eapply Qclt_le_trans; eassumption.
      * apply (hd_le_last (y1 :: yt)). now apply increasing_nondecreasing.
    + apply Qcltb_false_iff in C. now apply IH.
Qed.

(** Between the first and the last knot the interpolant grows strictly. *)
Lemma Qinterp_linear_strict (x : list Qc) :
  forall (y : list Qc) (q q' : Qc),
    length x = length y -> nondecreasing x -> increasing y ->
    hd 0 x <= q -> q < q' -> q' <= last x 0 ->
    Qinterp_linear x y q < Qinterp_linear x y q'.
Proof.
  induction x as [|x0 [|x1 xt] IH]; intros y q q' L Sx Sy H Hq H'.
  - simpl in H, H'. exfalso. revert Hq. apply Qcle_not_lt.
    eapply Qcle_trans; eassumption.
  - simpl in H, H'. exfalso. revert Hq. apply Qcle_not_lt.
    eapply Qcle_trans; eassumption.
  - destruct y as [|y0 [|y1 yt]]; try discriminate L.
    pose proof Sx as [Hx Sx']. pose proof Sy as [Hy Sy'].
    rewrite !Qinterp_linear_step. simpl hd in H.
    change (last (x0 :: x1 :: xt) 0) with (last (x1 :: xt) 0) in H'.
    assert (L' : length (x1 :: xt) = length (y1 :: yt)) by (simpl in L |- *; lia).
    destruct (Qcltb q x1) eqn:C; destruct (Qcltb q' x1) eqn:C'.
    + apply Qcltb_true_iff in C'.
      apply (@segment_strict x0 x1 y0 y1 q q'); try assumption.
      now apply Qclt_le_weak.
    + apply Qcltb_true_iff in C. apply Qcltb_false_iff in C'.
      destruct (@segment_strict x0 x1 y0 y1 q x1) as [B1 B2];
        try assumption; [apply Qcle_refl|].
      destruct (@Qinterp_linear_bounds (x1 :: xt) (y1 :: yt) q') as [B3 _];
        try assumption; [now apply increasing_nondecreasing | discriminate|].
      simpl hd in B3.
      eapply Qclt_le_trans; [exact B1|]. eapply Qcle_trans; eassumption.
    + apply Qcltb_false_iff in C. apply Qcltb_true_iff in C'.
      exfalso. revert C'. apply Qcle_not_lt.
      eapply Qcle_trans; [exact C | now apply Qclt_le_weak].
    + apply Qcltb_false_iff in C. now apply IH.
Qed.

(** The clamped interpolant separates two targets unless both are clamped
    to the same end. *)
Lemma Qinterp_strict (x y : list Qc) (q q' : Qc) :
  length x = length y -> (2 <= length x)%nat ->
  nondecreasing x -> increasing y ->
  q < q' -> hd 0 x < q' -> q < last x 0 ->
  Qinterp x y q < Qinterp x y q'.
Proof.
  intros L L2 Sx Sy Hq Hlo Hhi. unfold Qinterp.
  assert (Ly : (2 <= length y)%nat) by lia.
  assert (B' : Qcltb q' (hd 0 x) = false)
    by (apply Qcltb_false_iff; now apply Qclt_le_weak).
  assert (A0 : Qcltb (last x 0) q = false)
    by (apply Qcltb_false_iff; now apply Qclt_le_weak).
  rewrite B', A0.
  destruct (Qcltb q (hd 0 x)) eqn:B; destruct (Qcltb (last x 0) q') eqn:A'.
  - now apply hd_lt_last.
  - apply Qcltb_false_iff in A'. now apply Qinterp_linear_gt_hd.
  - apply Qcltb_false_iff in B. now apply Qinterp_linear_lt_last.
  - apply Qcltb_false_iff in B. apply Qcltb_false_iff in A'.
    now apply Qinterp_linear_strict.
Qed.

Lemma last_map_default {X Y : Type} (g : X -> Y) (l : list X) (d : X) :
  last (map g l) (g d) = g (last l d).
Proof.
  induction l as [|a [|b t] IH]; [reflexivity | reflexivity |].
  change (last (map g (b :: t)) (g d) = g (last (b :: t) d)). exact IH.
Qed.

Lemma last_nonempty_default {X : Type} (l : list X) (d d' : X) :
  l <> [] -> last l d = last l d'.
Proof.
  induction l as [|a [|b t] IH]; intro N; [congruence | reflexivity |].
  change (last (b :: t) d = last (b :: t) d'). apply IH. discriminate.
Qed.

Lemma generic_cumsum_length {F : Type} {A : Generic.Ops F} (s : Generic.Series F) :
  length (Generic.cumsum s) = length s.
Proof.
  unfold Generic.cumsum, Generic.values.
  rewrite <- (length_map snd s). generalize (map snd s) (Generic.of_int 0).
  intro l. induction l as [|v l IH]; intro acc; simpl; [reflexivity|].
  destruct (Generic.isnan v); simpl; now rewrite IH.
Qed.

(** The interval in every arithmetic: the interpolant's values at the two
    computed targets. *)
Lemma generic_credible_interval_returns {F : Type} {A : Generic.Ops F}
    (pmf : Generic.Series F) (prob : F) :
  (2 <= length pmf)%nat ->
  Generic.credible_interval pmf prob
  = Ok (Scipy.interp1d_call (map Generic.exact (Generic.cumsum pmf))
          (map Generic.exact (Generic.index pmf))
          (hd NaN (map Generic.exact (Generic.index pmf)))
          (last (map Generic.exact (Generic.index pmf)) NaN)
          (Generic.exact
             (Generic.div (Generic.sub (Generic.of_int 1) prob) (Generic.of_int 2))),
        Scipy.interp1d_call (map Generic.exact (Generic.cumsum pmf))
          (map Generic.exact (Generic.index pmf))
          (hd NaN (map Generic.exact (Generic.index pmf)))
          (last (map Generic.exact (Generic.index pmf)) NaN)
          (Generic.exact
             (Generic.sub (Generic.of_int 1)
                (Generic.div (Generic.sub (Generic.of_int 1) prob)
                   (Generic.of_int 2))))).
Proof.
  intro L.
  assert (Ly : length (map Generic.exact (Generic.cumsum pmf))
               = length (map Generic.exact (Generic.index pmf))).
  { unfold Generic.index. now rewrite !length_map, generic_cumsum_length. }
  assert (Lx : length (map Generic.exact (Generic.index pmf)) = length pmf).
  { unfold Generic.index. now rewrite !length_map. }
  unfold Generic.credible_interval, Scipy.interp1d.
  destruct pmf as [|[x0 m0] s']; [simpl in L; lia|].
  cbn [bind]. rewrite Ly, Nat.eqb_refl. cbn [negb]. rewrite Lx.
  destruct (Nat.ltb_spec (length ((x0, m0) :: s')) 2) as [C|_]; [lia|].
  change (Generic.index ((x0, m0) :: s')) with (x0 :: Generic.index s').
  cbn [bind fst snd].
  rewrite <- (last_map_default Generic.exact (x0 :: Generic.index s') x0).
  rewrite (@last_nonempty_default _ (map Generic.exact (x0 :: Generic.index s'))
             (Generic.exact x0) NaN) by discriminate.
  reflexivity.
Qed.

(** The interval over [num] is the interval of [Generic] at
    [exact_ops]. *)
Lemma cumsum_exact_instance (s : Pd.Series) :
  Generic.cumsum (A:=exact_ops) s = Pd.cumsum s.
Proof.
  unfold Generic.cumsum, Pd.cumsum. change (Generic.values s) with (Pd.values s).
  change (Generic.of_int 0) with (Fin 0).
  generalize (Pd.values s) (Fin 0). intro l.
  induction l as [|v l IH]; intro acc; simpl; [reflexivity|].
  destruct v as [q|b|]; simpl; now rewrite IH.
Qed.

Lemma credible_interval_exact_instance (s : Pd.Series) (prob : num) :
  Generic.credible_interval (A:=exact_ops) s prob = credible_interval s prob.
Proof.
  unfold Generic.credible_interval, credible_interval.
  rewrite cumsum_exact_instance. change (Generic.index s) with (Pd.index s).
  cbn [Generic.exact exact_ops]. rewrite !map_id.
  destruct (Pd.index s) as [|x0 l] eqn:E; [reflexivity|].
  cbn [bind].
  now rewrite (@last_nonempty_default _ (x0 :: l) x0 NaN) by discriminate.
Qed.

(** C4, amended.  In every arithmetic, for every PMF with at least two
    points whose grid values are finite and non-decreasing and whose
    computed cumulative sums are finite and non-decreasing (as they are
    for non-negative masses), and for every prob whose computed targets
    p_lo = (1 - prob) / 2 and p_hi = 1 - p_lo are finite with
    p_lo <= p_hi (as they are for prob in (0, 1)), [credible_interval]
    returns the pair of the inverse CDF at p_lo and at p_hi, where the
    inverse CDF is the linear interpolant through the points (cumulative
    sum, grid value); the value is the first grid value when p_lo is
    below the first cumulative sum and the last grid value when p_hi is
    above the last one; low <= high and both lie within the grid's
    range.  On a strictly increasing grid low < high whenever
    p_lo < p_hi, p_hi is above the first cumulative sum (the first grid
    point carries less than p_hi of the mass) and p_lo is below the last
    cumulative sum; when p_hi is below the first cumulative sum both low
    and high are the first grid value. *)
Theorem credible_interval_inverse_cdf_bounds :
  forall (F : Type) (A : Generic.Ops F) (pmf : Generic.Series F) (prob : F)
         (grid cums : list Qc) (q_lo q_hi : Qc),
    (2 <= length pmf)%nat ->
    map Generic.exact (Generic.index pmf) = map Fin grid ->
    nondecreasing grid ->
    map Generic.exact (Generic.cumsum pmf) = map Fin cums ->
    nondecreasing cums ->
    Generic.exact
      (Generic.div (Generic.sub (Generic.of_int 1) prob) (Generic.of_int 2))
    = Fin q_lo ->
    Generic.exact
      (Generic.sub (Generic.of_int 1)
         (Generic.div (Generic.sub (Generic.of_int 1) prob) (Generic.of_int 2)))
    = Fin q_hi ->
    q_lo <= q_hi ->
    exists low high : Qc,
      Generic.credible_interval pmf prob = Ok (Fin low, Fin high)
      /\ low = Qinterp cums grid q_lo
      /\ high = Qinterp cums grid q_hi
      /\ (q_lo < hd 0 cums -> low = hd 0 grid)
      /\ (last cums 0 < q_hi -> high = last grid 0)
      /\ low <= high
      /\ hd 0 grid <= low
      /\ high <= last grid 0
      /\ (increasing grid -> q_lo < q_hi -> hd 0 cums < q_hi -> q_lo < last cums 0 ->
          low < high)
      /\ (q_hi < hd 0 cums -> low = hd 0 grid /\ high = hd 0 grid).
Proof.
  intros F A pmf prob grid cums q_lo q_hi L Hx Sx Hc Sc Hlo Hhi Hq.
  assert (Lg : length grid = length pmf).
  { rewrite <- (length_map Fin grid), <- Hx. unfold Generic.index.
    now rewrite !length_map. }
  assert (Lc : length cums = length grid).
  { rewrite Lg, <- (length_map Fin cums), <- Hc, length_map.
    apply generic_cumsum_length. }
  assert (Ng : grid <> []) by (destruct grid; [simpl in Lg; lia | discriminate]).
  assert (Nc : cums <> []) by (destruct cums; [simpl in Lc; lia | discriminate]).
  exists (Qinterp cums grid q_lo), (Qinterp cums grid q_hi).
  split.
  { rewrite generic_credible_interval_returns by exact L.
    rewrite Hx, Hc, Hlo, Hhi.
    rewrite hd_map_Fin, last_map_Fin by assumption.
    now rewrite !interp1d_call_finite by assumption. }
  split; [reflexivity|]. split; [reflexivity|].
  assert (Below : forall q, q < hd 0 cums -> Qinterp cums grid q = hd 0 grid).
  { intros q B. unfold Qinterp. apply Qcltb_true_iff in B. now rewrite B. }
  split; [apply Below|].
  split.
  { intro Ab. unfold Qinterp.
    assert (B : Qcltb q_hi (hd 0 cums) = false).
    { apply Qcltb_false_iff. apply Qclt_le_weak.
      eapply Qcle_lt_trans; [apply hd_le_last, Sc | exact Ab]. }
    apply Qcltb_true_iff in Ab. now rewrite B, Ab. }
  split; [now apply Qinterp_mono|].
  split; [now apply Qinterp_bounds|].
  split; [now apply Qinterp_bounds|].
  split.
  { intros Ig Hlt H1 H2. apply Qinterp_strict; try assumption. lia. }
  intro B. split; apply Below; [|exact B].
  eapply Qcle_lt_trans; eassumption.
Qed.

Lemma credible_interval_inverse_cdf_bounds_witness :
  exists low high : Qc,
    Generic.credible_interval (A:=exact_ops) (of_finite quarters) (Fin (Q2Qc (1 # 2)))
    = Ok (Fin low, Fin high)
    /\ low = Q2Qc (1 # 4) /\ high = Q2Qc (1 # 2) /\ low < high.
Proof.
  destruct (@credible_interval_inverse_cdf_bounds num exact_ops
              (of_finite quarters) (Fin (Q2Qc (1 # 2)))
              (map fst quarters) (cdf quarters) (Q2Qc (1 # 4)) (Q2Qc (3 # 4)))
    as (low & high & Run & Elo & Ehi & _ & _ & _ & _ & _ & Strict & _).
  - simpl. lia.
  - apply nums_eqb_eq. vm_compute. reflexivity.
  - simpl. repeat split; apply Qcle_alt; vm_compute; discriminate.
  - apply nums_eqb_eq. vm_compute. reflexivity.
  - simpl. repeat split; apply Qcle_alt; vm_compute; discriminate.
  - apply num_eqb_eq. vm_compute. reflexivity.
  - apply num_eqb_eq. vm_compute. reflexivity.
  - apply Qcle_alt. vm_compute. discriminate.
  - exists low, high. split; [exact Run|].
    split; [rewrite Elo; apply Qc_is_canon; vm_compute; reflexivity|].
    split; [rewrite Ehi; apply Qc_is_canon; vm_compute; reflexivity|].
    apply Strict.
    + simpl. repeat split; apply Qclt_alt; vm_compute; reflexivity.
    + apply Qclt_alt. vm_compute. reflexivity.
    + apply Qclt_alt. vm_compute. reflexivity.
    + apply Qclt_alt. vm_compute. reflexivity.
Defined.

Lemma p_lo_lt_p_hi (prob : Qc) : 0 < prob -> p_lo prob < p_hi prob.
Proof.
  intro H. unfold p_hi, p_lo.
  assert (E : (1 - prob) / two * two = 1 - prob).
  { unfold Qcdiv. rewrite <- Qcmult_assoc, Qcmult_inv_l, Qcmult_1_r;
      [reflexivity | apply two_neq_0]. }
  revert E. generalize ((1 - prob) / two). intros h E.
  assert (T : two = 1 + 1) by (apply Qc_is_canon; reflexivity).
  rewrite T in E. qc_lra.
Qed.

Lemma p_lo_lt_1 (prob : Qc) : 0 < prob -> p_lo prob < 1.
Proof.
  intro H. unfold p_lo.
  assert (E : (1 - prob) / two * two = 1 - prob).
  { unfold Qcdiv. rewrite <- Qcmult_assoc, Qcmult_inv_l, Qcmult_1_r;
      [reflexivity | apply two_neq_0]. }
  revert E. generalize ((1 - prob) / two). intros h E.
  assert (T : two = 1 + 1) by (apply Qc_is_canon; reflexivity).
  rewrite T in E. qc_lra.
Qed.

Lemma Qccumsum_last (l : list Qc) :
  forall a : Qc, l <> [] -> last (Qccumsum a l) 0 = a + Qcsum l.
Proof.
  induction l as [|v [|w l] IH]; intros a N; [congruence| |].
  - simpl. now rewrite Qcplus_0_r.
  - change (last (Qccumsum (a + v) (w :: l)) 0 = a + (v + Qcsum (w :: l))).
    rewrite IH by discriminate. now rewrite Qcplus_assoc.
Qed.

Lemma cdf_last (f : pmf) : f <> [] -> last (cdf f) 0 = total f.
Proof.
  intro N. unfold cdf, total. rewrite Qccumsum_last.
  - now rewrite Qcplus_0_l.
  - destruct f; [congruence | discriminate].
Qed.

(** In exact arithmetic the targets of a prob in (0, 1) differ and the
    lower one is below the total of a normalised PMF, so on a strictly
    increasing grid low < high unless the first grid point carries at
    least p_hi of the mass. *)
Lemma credible_interval_strict_in_exact_arithmetic (f : pmf) (prob : Qc) :
  (2 <= length f)%nat ->
  increasing (map fst f) ->
  (forall m, In m (map snd f) -> 0 <= m) ->
  total f = 1 ->
  0 < prob -> prob < 1 ->
  hd 0 (cdf f) < p_hi prob ->
  exists low high : Qc,
    Generic.credible_interval (A:=exact_ops) (of_finite f) (Fin prob)
    = Ok (Fin low, Fin high)
    /\ low < high.
Proof.
  intros L Ig Hm T H0 H1 Hhd.
  assert (N : f <> []) by (destruct f; [simpl in L; lia | discriminate]).
  exists (inverse_cdf f (p_lo prob)), (inverse_cdf f (p_hi prob)).
  split.
  - rewrite credible_interval_exact_instance. now apply credible_interval_finite.
  - unfold inverse_cdf. apply Qinterp_strict; try assumption.
    + unfold cdf. now rewrite Qccumsum_length, !length_map.
    + unfold cdf. now rewrite Qccumsum_length, length_map.
    + now apply Qccumsum_nondecreasing.
    + now apply p_lo_lt_p_hi.
    + rewrite cdf_last, T by assumption. now apply p_lo_lt_1.
Qed.

(** The targets can coincide for a prob in (0, 1): in binary64, with
    prob = 2^-60, (1 - prob) / 2 and 1 - (1 - prob) / 2 both round to
    0.5, and the interval of the PMF with masses 1/4 and 3/4 is the
    single point 1/3. *)
Example credible_interval_equal_targets_binary64 :
  Generic.credible_interval (A:=Binary64.ops)
    [(0%float, 0.25%float); (1%float, 0.75%float)] 0x1p-60%float
  = Ok (Fin (Q2Qc (1 # 3)), Fin (Q2Qc (1 # 3))).
Proof.
  assert (E : forall a b : num * num,
             (num_eqb (fst a) (fst b) && num_eqb (snd a) (snd b))%bool = true -> a = b).
  { intros [a1 a2] [b1 b2] H. apply andb_prop in H. destruct H as [H1 H2].
    apply num_eqb_eq in H1. apply num_eqb_eq in H2. simpl in *. congruence. }
  match goal with
  | |- ?l = Ok ?r =>
      assert (R : exists v, l = Ok v /\ v = r)
  end.
  { eexists. split; [vm_compute; reflexivity|]. apply E. vm_compute. reflexivity. }
  destruct R as (v & -> & ->). reflexivity.
Qed.

(* ------------------------------------------------------------------ *)
(** *** The mode *)

Lemma argmax_from_spec (l : list Qc) :
  forall (bi i : nat) (b : Qc),
    (Pd.argmax_from bi (Fin b) i (map Fin l) = bi
     /\ forall j w, nth_error l j = Some w -> w <= b)
    \/ (exists k v,
          Pd.argmax_from bi (Fin b) i (map Fin l) = (i + k)%nat
          /\ nth_error l k = Some v
          /\ b < v
          /\ (forall j w, nth_error l j = Some w -> w <= v)
          /\ (forall j w, nth_error l j = Some w -> (j < k)%nat -> w < v)).
Proof.
  induction l as [|v l IH]; intros bi i b.
  - left. split; [reflexivity|]. intros [|j] w H; discriminate H.
  - change (Pd.argmax_from bi (Fin b) i (map Fin (v :: l)))
      with (if Qcltb b v then Pd.argmax_from i (Fin v) (S i) (map Fin l)
            else Pd.argmax_from bi (Fin b) (S i) (map Fin l)).
    destruct (Qcltb b v) eqn:C.
    + apply Qcltb_true_iff in C. right.
      destruct (IH i (S i) v) as [[E A] | (k & v' & E & Hk & Hv & A & F)].
      * exists 0%nat, v. rewrite E, Nat.add_0_r.
        split; [reflexivity|]. split; [reflexivity|]. split; [exact C|]. split.
        -- intros [|j] w H; [injection H as <-; apply Qcle_refl | now apply (A j)].
        -- intros j w _ Hj. lia.
      * exists (S k), v'. rewrite E.
        split; [lia|]. split; [exact Hk|].
        split; [eapply Qclt_trans; eassumption|]. split.
        -- intros [|j] w H; [injection H as <-; now apply Qclt_le_weak | now apply (A j)].
        -- intros [|j] w H Hj; [injection H as <-; exact Hv|].
           apply (F j); [exact H | lia].
    + apply Qcltb_false_iff in C.
      destruct (IH bi (S i) b) as [[E A] | (k & v' & E & Hk & Hv & A & F)].
      * left. split; [exact E|].
        intros [|j] w H; [injection H as <-; exact C | now apply (A j)].
      * right. exists (S k), v'. rewrite E.
        split; [lia|]. split; [exact Hk|]. split; [exact Hv|]. split.
        -- intros [|j] w H; [|now apply (A j)].
           injection H as <-. apply Qclt_le_weak. eapply Qcle_lt_trans; eassumption.
        -- intros [|j] w H Hj; [|apply (F j); [exact H | lia]].
           injection H as <-. eapply Qcle_lt_trans; eassumption.
Qed.

Lemma nth_index_of_finite (f : pmf) (i : nat) (x m : Qc) :
  nth_error f i = Some (x, m) -> nth i (Pd.index (of_finite f)) NaN = Fin x.
Proof.
  revert i. induction f as [|[y n] f IH]; intros [|i] H; try discriminate H.
  - injection H as -> ->. reflexivity.
  - apply (IH i H).
Qed.

Lemma nth_error_masses (f : pmf) (j : nat) (w : Qc) :
  nth_error (map snd f) j = Some w -> exists y, nth_error f j = Some (y, w).
Proof.
  revert j. induction f as [|[y n] f IH]; intros [|j] H; try discriminate H.
  - injection H as <-. now exists y.
  - apply (IH j H).
Qed.

Lemma nth_error_masses_of (f : pmf) (j : nat) (y n : Qc) :
  nth_error f j = Some (y, n) -> nth_error (map snd f) j = Some n.
Proof. intro H. rewrite nth_error_map, H. reflexivity. Qed.

(** [idxmax] on a non-empty finite PMF returns the grid value at the
    first position of a largest mass. *)
Lemma idxmax_finite (f : pmf) :
  f <> [] ->
  exists i x m,
    nth_error f i = Some (x, m)
    /\ Pd.idxmax (of_finite f) = Ok (Fin x)
    /\ first_maximal f i.
Proof.
  destruct f as [|[x0 m0] rest]; [congruence|]. intros _.
  assert (E : Pd.idxmax (of_finite ((x0, m0) :: rest))
              = Ok (nth (Pd.argmax_from 0 (Fin m0) 1 (map Fin (map snd rest)))
                      (Pd.index (of_finite ((x0, m0) :: rest))) NaN)).
  { assert (V : map Pd.nan_to_neginf (Pd.values (of_finite rest))
                = map Fin (map snd rest)).
    { unfold Pd.values, of_finite. rewrite !map_map.
      apply map_ext. intros [y n]. reflexivity. }
    unfold Pd.idxmax. cbn [of_finite map fst snd Pd.values forallb is_nan andb].
    unfold Pd.nan_to_neginf at 1. cbn [is_nan].
    change (map (fun xm : Qc * Qc => (Fin (fst xm), Fin (snd xm))) rest)
      with (of_finite rest).
    change (map snd (of_finite rest)) with (Pd.values (of_finite rest)).
    rewrite V. reflexivity. }
  rewrite E. clear E.
  destruct (argmax_from_spec (map snd rest) 0 1 m0)
    as [[-> A] | (k & v & -> & Hk & Hv & A & F)].
  - exists 0%nat, x0, m0. split; [reflexivity|]. split; [reflexivity|].
    exists x0, m0. split; [reflexivity|]. split.
    + intros [|j] y n H; [injection H as _ <-; apply Qcle_refl|].
      apply (A j). now apply nth_error_masses_of with (y := y).
    + intros j y n _ Hj. lia.
  - destruct (nth_error_masses rest k Hk) as [xk Hxk].
    exists (S k), xk, v. split; [exact Hxk|]. split.
    + f_equal. now apply nth_index_of_finite with (m := v).
    + exists xk, v. split; [exact Hxk|]. split.
      * intros [|j] y n H; [injection H as _ <-; now apply Qclt_le_weak|].
        apply (A j). now apply nth_error_masses_of with (y := y).
      * intros [|j] y n H Hj; [injection H as _ <-; exact Hv|].
        apply (F j); [now apply nth_error_masses_of with (y := y) | lia].
Qed.

Lemma first_maximal_unique (f : pmf) (i j : nat) :
  first_maximal f i -> first_maximal f j -> i = j.
Proof.
  intros (x & m & Hi & Ai & Fi) (y & n & Hj & Aj & Fj).
  destruct (Nat.lt_trichotomy i j) as [L | [E | L]]; [|exact E|].
  - exfalso. pose proof (Fj i x m Hi L) as P. pose proof (Ai j y n Hj) as Q.
    revert P. now apply Qcle_not_lt.
  - exfalso. pose proof (Fi j y n Hj L) as P. pose proof (Aj i x m Hi) as Q.
    revert P. now apply Qcle_not_lt.
Qed.

Lemma nth_error_rescaled (c : Qc) (f : pmf) (j : nat) (y n : Qc) :
  nth_error (rescaled c f) j = Some (y, n) ->
  exists n0, nth_error f j = Some (y, n0) /\ n = c * n0.
Proof.
  unfold rescaled. rewrite nth_error_map.
  destruct (nth_error f j) as [[y0 n0]|]; [|discriminate].
  simpl. intro H. injection H as <- <-. now exists n0.
Qed.

Lemma first_maximal_rescaled (c : Qc) (f : pmf) (i : nat) :
  0 < c -> first_maximal f i -> first_maximal (rescaled c f) i.
Proof.
  intros Hc (x & m & Hi & A & F).
  exists x, (c * m). split; [|split].
  - unfold rescaled. rewrite nth_error_map, Hi. reflexivity.
  - intros j y n H. apply nth_error_rescaled in H. destruct H as (n0 & H & ->).
    pose proof (A j y n0 H). qc_nra.
  - intros j y n H Hj. apply nth_error_rescaled in H. destruct H as (n0 & H & ->).
    pose proof (F j y n0 H Hj). qc_nra.
Qed.

Lemma nondecreasing_nth (l : list Qc) :
  forall (i j : nat) (a b : Qc),
    nondecreasing l -> (i <= j)%nat ->
    nth_error l i = Some a -> nth_error l j = Some b -> a <= b.
Proof.
  induction l as [|c l IH]; intros i j a b S L Hi Hj; [destruct i; discriminate|].
  destruct i as [|i], j as [|j]; try lia.
  - injection Hi as <-. injection Hj as <-. apply Qcle_refl.
  - injection Hi as <-. destruct l as [|d l]; [destruct j; discriminate|].
    destruct S as [Hcd S]. simpl in Hj.
    eapply Qcle_trans; [exact Hcd|].
    apply (IH 0%nat j d b S); [lia | reflexivity | exact Hj].
  - destruct l as [|d l]; [destruct i; discriminate|].
    destruct S as [_ S]. apply (IH i j a b S); [lia | exact Hi | exact Hj].
Qed.

(** C6.  For every non-empty finite PMF, normalised or not, [idxmax]
    (the MAP estimate) returns a grid value whose mass is maximal, the
    one at the first position in grid order where the maximum is
    reached, which on a non-decreasing grid is the lowest such x.  The
    answer is unchanged when all masses are multiplied by a positive
    constant, and when all masses are equal it is the first grid
    value. *)
Theorem idxmax_first_maximal_mass :
  forall f : pmf,
    f <> [] ->
    exists (i : nat) (x m : Qc),
      nth_error f i = Some (x, m)
      /\ Pd.idxmax (of_finite f) = Ok (Fin x)
      /\ (forall j y n, nth_error f j = Some (y, n) -> n <= m)
      /\ (forall j y n, nth_error f j = Some (y, n) -> (j < i)%nat -> n < m)
      /\ (nondecreasing (map fst f) ->
          forall j y n, nth_error f j = Some (y, n) -> n = m -> x <= y)
      /\ (forall c, 0 < c -> Pd.idxmax (of_finite (rescaled c f)) = Ok (Fin x))
      /\ ((forall xm, In xm f -> snd xm = m) -> i = 0%nat).
Proof.
  intros f N.
  destruct (idxmax_finite N) as (i & x & m & Hi & E & FM).
  pose proof FM as (x' & m' & Hi' & A & F).
  rewrite Hi in Hi'. injection Hi' as <- <-.
  exists i, x, m.
  split; [exact Hi|]. split; [exact E|]. split; [exact A|]. split; [exact F|].
  split; [|split].
  - intros S j y n Hj ->.
    assert (L : (i <= j)%nat).
    { destruct (Nat.le_gt_cases i j) as [L | L]; [exact L|].
      exfalso. pose proof (F j y m Hj L) as P. revert P.
      apply Qcle_not_lt, Qcle_refl. }
    apply (@nondecreasing_nth (map fst f) i j x y S L).
    + rewrite nth_error_map, Hi. reflexivity.
    + rewrite nth_error_map, Hj. reflexivity.
  - intros c Hc.
    assert (Nc : rescaled c f <> []) by (destruct f; [congruence | discriminate]).
    destruct (idxmax_finite Nc) as (i' & x' & m' & Hi' & E' & FM').
    pose proof (first_maximal_rescaled Hc FM) as FMc.
    pose proof (first_maximal_unique FM' FMc) as ->.
    apply nth_error_rescaled in Hi'. destruct Hi' as (n0 & Hi' & _).
    rewrite Hi in Hi'. injection Hi' as <- _. exact E'.
  - intro Eq. destruct i as [|i]; [reflexivity|]. exfalso.
    destruct f as [|[x0 m0] rest]; [congruence|].
    pose proof (F 0%nat x0 m0 eq_refl (Nat.lt_0_succ i)) as P.
    pose proof (Eq (x0, m0) (or_introl eq_refl)) as Q. simpl in Q. subst m0.
    revert P. apply Qcle_not_lt, Qcle_refl.
Qed.

Lemma idxmax_first_maximal_mass_witness :
  exists (i : nat) (x m : Qc),
    nth_error coin2 i = Some (x, m)
    /\ Pd.idxmax (of_finite coin2) = Ok (Fin x)
    /\ (forall j y n, nth_error coin2 j = Some (y, n) -> n <= m)
    /\ (forall j y n, nth_error coin2 j = Some (y, n) -> (j < i)%nat -> n < m)
    /\ (nondecreasing (map fst coin2) ->
        forall j y n, nth_error coin2 j = Some (y, n) -> n = m -> x <= y)
    /\ (forall c, 0 < c -> Pd.idxmax (of_finite (rescaled c coin2)) = Ok (Fin x))
    /\ ((forall xm, In xm coin2 -> snd xm = m) -> i = 0%nat).
Proof.
  apply (@idxmax_first_maximal_mass coin2). discriminate.
Defined.

(* ------------------------------------------------------------------ *)
(** *** Order of the outcomes, and updating in steps *)

Lemma weighted_cons (oc : outcome * nat) (rest : list (outcome * nat)) (f : pmf) :
  weighted (oc :: rest) f = weighted rest (weighted [oc] f).
Proof.
  unfold weighted. rewrite map_map. apply map_ext. intros [x m].
  destruct oc as [o c]. simpl. f_equal. rewrite Qcmult_1_r.
  now rewrite Qcmult_assoc.
Qed.

Lemma weighted_scaled (os : list (outcome * nat)) (g : pmf) (t : Qc) :
  weighted os (scaled g t) = scaled (weighted os g) t.
Proof.
  unfold weighted, scaled. rewrite !map_map. apply map_ext. intros [x m].
  simpl. f_equal. unfold Qcdiv.
  rewrite <- !Qcmult_assoc. f_equal. apply Qcmult_comm.
Qed.

Lemma Qcdiv_pos_sign (u t : Qc) :
  0 < t -> Qceqb (u / t) 0 = Qceqb u 0 /\ Qcltb (u / t) 0 = Qcltb u 0.
Proof.
  intro Ht.
  assert (E : u / t * t = u).
  { unfold Qcdiv. rewrite <- Qcmult_assoc, Qcmult_inv_l, Qcmult_1_r;
      [reflexivity | now apply Qclt_neq_0]. }
  revert E. generalize (u / t). intros q E. subst u. split.
  - destruct (Qceqb q 0) eqn:A.
    + apply Qceqb_true_iff in A. subst q. rewrite Qcmult_0_l.
      symmetry. apply Qceqb_refl.
    + symmetry. apply Qceqb_false_iff. apply Qceqb_false_iff in A.
      intro Z. apply Qcmult_integral in Z. destruct Z as [Z | Z]; [now apply A|].
      subst t. revert Ht. apply Qcle_not_lt, Qcle_refl.
  - destruct (Qcltb q 0) eqn:A.
    + apply Qcltb_true_iff in A. symmetry. apply Qcltb_true_iff. qc_nra.
    + apply Qcltb_false_iff in A. symmetry. apply Qcltb_false_iff. qc_nra.
Qed.

Lemma ndiv_scaled (u U t : Qc) :
  0 < t -> ndiv (Fin (u / t)) (Fin (U / t)) = ndiv (Fin u) (Fin U).
Proof.
  intro Ht. pose proof (Qclt_neq_0 Ht) as Nt.
  destruct (Qcdiv_pos_sign u Ht) as [Eu Lu].
  destruct (Qcdiv_pos_sign U Ht) as [EU _].
  simpl. rewrite Eu, Lu, EU.
  destruct (Qceqb U 0) eqn:A; [reflexivity|].
  apply Qceqb_false_iff in A. f_equal. field. now split.
Qed.

Lemma posterior_spec_scaled (os : list (outcome * nat)) (g : pmf) (t : Qc) :
  0 < t -> posterior_spec (scaled g t) os = posterior_spec g os.
Proof.
  intro Ht. unfold posterior_spec.
  rewrite weighted_scaled, total_scaled.
  unfold divided, scaled. rewrite map_map. apply map_ext. intros [x m].
  simpl. f_equal. now apply ndiv_scaled.
Qed.

Lemma scaled_valid (g : pmf) (t : Qc) : 0 < t -> valid_pmf g -> valid_pmf (scaled g t).
Proof.
  intros Ht V. unfold valid_pmf, scaled. apply Forall_map.
  eapply Forall_impl; [|exact V].
  intros [x m] (H0 & H1 & Hm). repeat split; simpl in *; try assumption.
  assert (E : m / t * t = m).
  { unfold Qcdiv. rewrite <- Qcmult_assoc, Qcmult_inv_l, Qcmult_1_r;
      [reflexivity | now apply Qclt_neq_0]. }
  revert E. generalize (m / t). intros q E. subst m.
  apply Qcnot_lt_le. intro N. assert (q * t < 0) by qc_nra. qc_lra.
Qed.

Lemma grid_of_scaled (g : pmf) (t : Qc) : grid_of (scaled g t) = grid_of g.
Proof. unfold grid_of, scaled. now rewrite map_map. Qed.

Lemma sum_values_nan (g : list Qc) : Pd.sum (nan_series g) = Fin 0.
Proof.
  unfold Pd.sum, Pd.sum_values, Pd.values, nan_series. rewrite map_map. simpl.
  generalize (Fin 0). induction g as [|x g IH]; intro a; simpl; [reflexivity|].
  apply IH.
Qed.

Lemma mul_array_nan (g : list Qc) :
  forall a : list num,
    length a = length g ->
    Pd.mul_array (nan_series g) a = Ok (nan_series g).
Proof.
  intros a L. unfold Pd.mul_array, nan_series.
  rewrite length_map, L, Nat.eqb_refl. apply f_equal.
  revert a L. induction g as [|x g IHg]; intros [|v a] L; try discriminate L;
    [reflexivity|].
  simpl. f_equal. apply IHg. simpl in L. lia.
Qed.

Lemma weigh_nan (os : list (outcome * nat)) (g : list Qc) :
  weigh (map Fin g) (nan_series g) os = Ok (nan_series g).
Proof.
  induction os as [|[o c] rest IH]; simpl; [reflexivity|].
  rewrite mul_array_nan; [exact IH|].
  unfold Np.power. rewrite length_map.
  destruct o; simpl; unfold likelihood_heads, likelihood_tails, Np.rsub;
    now rewrite ?length_map.
Qed.

Lemma update_nan (os : list (outcome * nat)) (g : list Qc) :
  update (map Fin g) (nan_series g) os = Ok (nan_series g).
Proof.
  unfold update. rewrite weigh_nan. simpl. apply f_equal.
  unfold normalize. rewrite sum_values_nan.
  unfold Pd.truediv, nan_series. rewrite map_map. reflexivity.
Qed.

Lemma update_each_nan (os : list (outcome * nat)) (g : list Qc) :
  update_each (map Fin g) (nan_series g) os = Ok (nan_series g).
Proof.
  induction os as [|oc rest IH]; simpl; [reflexivity|].
  rewrite update_nan. simpl. exact IH.
Qed.

Lemma weighted_zero (os : list (outcome * nat)) (g : pmf) :
  (forall xm, In xm g -> snd xm = 0) ->
  forall xm, In xm (weighted os g) -> snd xm = 0.
Proof.
  intros H xm Hin. unfold weighted in Hin. apply in_map_iff in Hin.
  destruct Hin as [[x m] [<- Hin]]. simpl.
  pose proof (H (x, m) Hin) as E. simpl in E. subst m. apply Qcmult_0_l.
Qed.

Lemma valid_total_zero (g : pmf) :
  valid_pmf g -> total g = 0 -> forall xm, In xm g -> snd xm = 0.
Proof.
  intros V E xm Hin.
  apply (@Qcsum_zero_all_zero (map snd g) (valid_masses_nonneg V) E).
  now apply in_map.
Qed.

Lemma valid_total_nonneg (g : pmf) : valid_pmf g -> 0 <= total g.
Proof. intro V. apply Qcsum_nonneg. now apply valid_masses_nonneg. Qed.

(** Updating one outcome at a time gives the batched posterior. *)
Lemma update_each_batched (rest : list (outcome * nat)) :
  forall (oc : outcome * nat) (f : pmf),
    valid_pmf f ->
    update_each (grid_of f) (of_finite f) (oc :: rest)
    = update (grid_of f) (of_finite f) (oc :: rest).
Proof.
  induction rest as [|oc2 rest2 IH]; intros oc f V.
  - simpl. now destruct (update (grid_of f) (of_finite f) [oc]).
  - change (update_each (grid_of f) (of_finite f) (oc :: oc2 :: rest2))
      with (bind (update (grid_of f) (of_finite f) [oc])
              (fun posterior => update_each (grid_of f) posterior (oc2 :: rest2))).
    rewrite !update_finite. cbn [bind].
    set (g := weighted [oc] f).
    assert (Vg : valid_pmf g) by now apply weighted_valid.
    assert (Wg : weighted (oc :: oc2 :: rest2) f = weighted (oc2 :: rest2) g)
      by apply weighted_cons.
    assert (Gg : grid_of g = grid_of f) by apply grid_of_weighted.
    unfold posterior_spec at 1. fold g.
    destruct (Qcle_lt_or_eq _ _ (valid_total_nonneg Vg)) as [Pos | Zero].
    + rewrite divided_nonzero by now apply Qclt_neq_0.
      rewrite <- Gg, <- (grid_of_scaled g (total g)).
      rewrite IH by now apply scaled_valid.
      rewrite update_finite. apply f_equal.
      rewrite posterior_spec_scaled by assumption.
      unfold posterior_spec. now rewrite Wg.
    + symmetry in Zero.
      pose proof (valid_total_zero Vg Zero) as Z.
      rewrite divided_all_zero by assumption.
      assert (Ng : map (fun xm : Qc * Qc => (Fin (fst xm), NaN)) g
                   = nan_series (map fst g)).
      { unfold nan_series. now rewrite map_map. }
      rewrite Ng, <- Gg, grid_of_map_fst, update_each_nan. apply f_equal.
      unfold posterior_spec. rewrite Wg.
      rewrite divided_all_zero by now apply weighted_zero.
      unfold nan_series, weighted. now rewrite !map_map.
Qed.

(** Multiplication in another order. *)
Section GenericOrder.

Context {F : Type} {A : Generic.Ops F}.

Hypothesis mul_comm : forall a b : F, Generic.mul a b = Generic.mul b a.
Hypothesis mul_assoc :
  forall a b c : F, Generic.mul (Generic.mul a b) c = Generic.mul a (Generic.mul b c).

Lemma generic_unnormalized_perm (os os' : list (outcome * nat)) (x : F) :
  Permutation os os' ->
  forall m : F, Generic.unnormalized os x m = Generic.unnormalized os' x m.
Proof.
  unfold Generic.unnormalized.
  induction 1 as [| oc l l' _ IH | oc oc' l | l l' l'' _ IH1 _ IH2]; intro m; simpl.
  - reflexivity.
  - apply IH.
  - f_equal. rewrite !mul_assoc. f_equal. apply mul_comm.
  - now rewrite IH1.
Qed.

Lemma generic_update_perm (prior : Generic.Series F) (os os' : list (outcome * nat)) :
  Permutation os os' ->
  Generic.update (Generic.index prior) prior os
  = Generic.update (Generic.index prior) prior os'.
Proof.
  intro P. rewrite !generic_update_closed. apply f_equal.
  unfold Generic.posterior_spec.
  assert (E : map (fun xm => Generic.unnormalized os (fst xm) (snd xm)) prior
              = map (fun xm => Generic.unnormalized os' (fst xm) (snd xm)) prior).
  { apply map_ext. intros [x m]. now apply generic_unnormalized_perm. }
  rewrite E. apply map_ext. intros [x m]. cbn [fst snd].
  now rewrite (generic_unnormalized_perm x P).
Qed.

End GenericOrder.

Lemma Qceqb_mult_0 (p q : Qc) : Qceqb (p * q) 0 = Qceqb p 0 || Qceqb q 0.
Proof.
  destruct (Qceqb p 0) eqn:P; [apply Qceqb_true_iff in P; subst p;
    rewrite Qcmult_0_l; apply Qceqb_refl|].
  destruct (Qceqb q 0) eqn:Q; [apply Qceqb_true_iff in Q; subst q;
    rewrite Qcmult_0_r; apply Qceqb_refl|].
  apply Qceqb_false_iff in P. apply Qceqb_false_iff in Q.
  apply Qceqb_false_iff. intro Z. apply Qcmult_integral in Z. tauto.
Qed.

Lemma Qcltb_mult_0 (p q : Qc) :
  p <> 0 -> q <> 0 -> Qcltb (p * q) 0 = xorb (Qcltb p 0) (Qcltb q 0).
Proof.
  intros P Q.
  assert (Tp : p < 0 \/ 0 < p).
  { destruct (Qc_dec p 0) as [[L|G]|E]; [now left | now right | contradiction]. }
  assert (Tq : q < 0 \/ 0 < q).
  { destruct (Qc_dec q 0) as [[L|G]|E]; [now left | now right | contradiction]. }
  destruct Tp as [Lp|Gp]; destruct Tq as [Lq|Gq].
  - assert (B1 : Qcltb p 0 = true) by now apply Qcltb_true_iff.
    assert (B2 : Qcltb q 0 = true) by now apply Qcltb_true_iff.
    rewrite B1, B2. apply Qcltb_false_iff. qc_nra.
  - assert (B1 : Qcltb p 0 = true) by now apply Qcltb_true_iff.
    assert (B2 : Qcltb q 0 = false) by (apply Qcltb_false_iff; qc_lra).
    rewrite B1, B2. apply Qcltb_true_iff. qc_nra.
  - assert (B1 : Qcltb p 0 = false) by (apply Qcltb_false_iff; qc_lra).
    assert (B2 : Qcltb q 0 = true) by now apply Qcltb_true_iff.
    rewrite B1, B2. apply Qcltb_true_iff. qc_nra.
  - assert (B1 : Qcltb p 0 = false) by (apply Qcltb_false_iff; qc_lra).
    assert (B2 : Qcltb q 0 = false) by (apply Qcltb_false_iff; qc_lra).
    rewrite B1, B2. apply Qcltb_false_iff. qc_nra.
Qed.

Lemma nmul_comm (a b : num) : nmul a b = nmul b a.
Proof.
  destruct a as [p|s|]; destruct b as [q|t|]; simpl; try reflexivity.
  - now rewrite Qcmult_comm.
  - now rewrite xorb_comm.
Qed.

Ltac bool_cases :=
  repeat match goal with
         | |- context [Qcltb ?x 0] => destruct (Qcltb x 0)
         | b : bool |- _ => destruct b
         end;
  reflexivity.

Lemma nmul_assoc (a b c : num) : nmul (nmul a b) c = nmul a (nmul b c).
Proof.
  destruct a as [p|s|]; destruct b as [q|t|]; destruct c as [r|u|];
    try reflexivity.
  - simpl. now rewrite Qcmult_assoc.
  - (* Fin p, Fin q, Inf u *)
    simpl. rewrite Qceqb_mult_0.
    destruct (Qceqb p 0) eqn:P; destruct (Qceqb q 0) eqn:Q; simpl;
      rewrite ?P; try reflexivity.
    apply Qceqb_false_iff in P. apply Qceqb_false_iff in Q.
    rewrite Qcltb_mult_0 by assumption. bool_cases.
  - (* Fin p, Inf t, Fin r *)
    simpl. destruct (Qceqb p 0) eqn:P; destruct (Qceqb r 0) eqn:R; simpl;
      rewrite ?P, ?R; try reflexivity.
    bool_cases.
  - (* Fin p, Inf t, Inf u *)
    simpl. destruct (Qceqb p 0) eqn:P; simpl; rewrite ?P; try reflexivity.
    bool_cases.
  - (* Fin p, NaN, _ *) simpl. now destruct (Qceqb p 0).
  - (* Inf s, Fin q, Fin r *)
    simpl. rewrite Qceqb_mult_0.
    destruct (Qceqb q 0) eqn:Q; destruct (Qceqb r 0) eqn:R; simpl;
      rewrite ?R; try reflexivity.
    apply Qceqb_false_iff in Q. apply Qceqb_false_iff in R.
    rewrite Qcltb_mult_0 by assumption. bool_cases.
  - (* Inf s, Fin q, Inf u *)
    simpl. destruct (Qceqb q 0) eqn:Q; simpl; try reflexivity.
    bool_cases.
  - (* Inf s, Fin q, NaN *) simpl. now destruct (Qceqb q 0).
  - (* Inf s, Inf t, Fin r *)
    simpl. destruct (Qceqb r 0) eqn:R; simpl; try reflexivity.
    bool_cases.
  - simpl. bool_cases.
Qed.

(** C3, counterexample.  In binary64 the order of the factors changes
    the posterior.  On the grid [1/3, 2/3] with prior masses 1/4 and 3/4,
    one heads then one tails gives the mass 0.25 at the first grid point,
    one tails then one heads gives 0.25000000000000006.  On the grid
    [1/4, 1/2, 3/4] with prior masses 1/4, 1/2, 1/4, updating with 600
    heads and then with 600 tails gives the masses 0, 1, 0, while the
    one update with both gives NaN at every point: all its products
    underflow to zero.  On the notebook's own grid and uniform prior the
    products prior * x * (1 - x) and prior * (1 - x) * x differ at 33 of
    the 101 grid points. *)
Lemma update_order_matters_in_binary64_counterexample :
  Generic.update (A:=Binary64.ops) Binary64.thirds_grid Binary64.thirds_prior
    [(Heads, 1%nat); (Tails, 1%nat)]
  = Ok [((1 / 3)%float, 0.25%float); ((2 / 3)%float, 0.75%float)]
  /\ Generic.update (A:=Binary64.ops) Binary64.thirds_grid Binary64.thirds_prior
       [(Tails, 1%nat); (Heads, 1%nat)]
     = Ok [((1 / 3)%float, 0x1.0000000000001p-2%float); ((2 / 3)%float, 0.75%float)]
  /\ (0.25 <? 0x1.0000000000001p-2)%float = true
  /\ Generic.update_each (A:=Binary64.ops) Binary64.quarters_grid Binary64.quarters_prior
       [(Heads, 600%nat); (Tails, 600%nat)]
     = Ok [(0.25%float, 0%float); (0.5%float, 1%float); (0.75%float, 0%float)]
  /\ Generic.update (A:=Binary64.ops) Binary64.quarters_grid Binary64.quarters_prior
       [(Heads, 600%nat); (Tails, 600%nat)]
     = Ok [(0.25%float, nan); (0.5%float, nan); (0.75%float, nan)]
  /\ exists a b : Generic.Series float,
       Generic.weigh (A:=Binary64.ops) Binary64.xs Binary64.prior
         [(Heads, 1%nat); (Tails, 1%nat)] = Ok a
       /\ Generic.weigh (A:=Binary64.ops) Binary64.xs Binary64.prior
            [(Tails, 1%nat); (Heads, 1%nat)] = Ok b
       /\ length (filter (fun uv => negb (PrimFloat.eqb (snd (fst uv)) (snd (snd uv))))
                    (combine a b))
          = 33%nat.
Proof.
  split; [vm_compute; reflexivity|].
  split; [vm_compute; reflexivity|].
  split; [vm_compute; reflexivity|].
  split; [vm_compute; reflexivity|].
  split; [vm_compute; reflexivity|].
  eexists. eexists.
  split; [vm_compute; reflexivity|].
  split; [vm_compute; reflexivity|].
  vm_compute. reflexivity.
Qed.

(** C3, amended.  In every arithmetic whose multiplication is
    commutative and associative (exact arithmetic is; float64 is not
    associative), for every prior Series over the grid and every two
    outcome sequences that are permutations of each other, the update
    returns the same posterior; in particular one heads then one tails
    gives the same posterior as one tails then one heads.  In exact
    arithmetic, for a prior with non-negative masses on a grid within
    [0, 1], updating one outcome at a time gives the same posterior as
    the one batched update. *)
Theorem update_order_irrelevant :
  (forall (F : Type) (A : Generic.Ops F),
      (forall a b : F, Generic.mul a b = Generic.mul b a) ->
      (forall a b c : F,
          Generic.mul (Generic.mul a b) c = Generic.mul a (Generic.mul b c)) ->
      forall (xs : list F) (prior : Generic.Series F)
             (outcomes outcomes' : list (outcome * nat)),
        Generic.index prior = xs ->
        Permutation outcomes outcomes' ->
        Generic.update xs prior outcomes = Generic.update xs prior outcomes'
        /\ Generic.update xs prior [(Heads, 1%nat); (Tails, 1%nat)]
           = Generic.update xs prior [(Tails, 1%nat); (Heads, 1%nat)])
  /\ (forall (f : pmf) (oc : outcome * nat) (rest : list (outcome * nat)),
        valid_pmf f ->
        Generic.update_each (A:=exact_ops) (grid_of f) (of_finite f) (oc :: rest)
        = Generic.update (A:=exact_ops) (grid_of f) (of_finite f) (oc :: rest)).
Proof.
  split.
  - intros F A C As xs prior outcomes outcomes' <- P. split.
    + now apply generic_update_perm.
    + apply generic_update_perm; [assumption | assumption | apply perm_swap].
  - intros f oc rest V.
    rewrite update_each_exact_instance, update_exact_instance.
    now apply update_each_batched.
Qed.

Lemma update_order_irrelevant_witness :
  Generic.update (A:=exact_ops) (grid_of quarters) (of_finite quarters)
    [(Heads, 2%nat); (Tails, 1%nat)]
  = Generic.update (A:=exact_ops) (grid_of quarters) (of_finite quarters)
      [(Tails, 1%nat); (Heads, 2%nat)]
  /\ Generic.update (A:=exact_ops) (grid_of quarters) (of_finite quarters)
       [(Tails, 1%nat); (Heads, 2%nat)]
     = Ok (of_finite [(Q2Qc (1 # 4), Q2Qc (3 # 28)); (Q2Qc (1 # 2), Q2Qc (4 # 7));
                      (Q2Qc (3 # 4), Q2Qc (9 # 28))]).
Proof.
  split.
  - apply (proj1 update_order_irrelevant num exact_ops nmul_comm nmul_assoc
             (grid_of quarters) (of_finite quarters)
             [(Heads, 2%nat); (Tails, 1%nat)] [(Tails, 1%nat); (Heads, 2%nat)]).
    + reflexivity.
    + apply perm_swap.
  - apply returns_series_eq. vm_compute. reflexivity.
Defined.

(* ------------------------------------------------------------------ *)
(** *** The prior is not mutated *)



Lemma nth_error_set_nth (h : Heap.heap) (r : nat) (s s0 : Pd.Series) :
  nth_error h r = Some s0 -> nth_error (Heap.set_nth h r s) r = Some s.
Proof.
  revert r. induction h as [|s1 h IH]; intros [|r] H; try discriminate H.
  - reflexivity.
  - simpl. now apply IH.
Qed.






(* ------------------------------------------------------------------ *)
(** *** The notebook's first posterior *)

(** After one heads and one tails on the uniform prior the mode is 0.5. *)
Example Euro_posterior_idxmax :
  exists posterior,
    Euro.posterior = Ok posterior
    /\ Pd.idxmax posterior = Ok (Fin (Q2Qc (1 # 2))).
Proof.
  eexists. split; [vm_compute; reflexivity|].
  vm_compute. reflexivity.
Qed.

(* ================================================================== *)
(** ** Further properties of the cells *)

(* ------------------------------------------------------------------ *)
(** *** Shapes: the update keeps the grid, or raises *)

(** X1.  For every prior Series with as many entries as the grid, finite
    or not, and every outcome sequence, the update raises nothing and
    returns a Series with the labels of the prior, in the same order. *)
Theorem update_keeps_index :
  forall (xs : list num) (prior : Pd.Series) (outcomes : list (outcome * nat)),
    length prior = length xs ->
    exists posterior,
      update xs prior outcomes = Ok posterior
      /\ Pd.index posterior = Pd.index prior
      /\ length posterior = length prior.
Proof.
  intros xs prior outcomes L.
  destruct (weigh_index xs outcomes prior L) as (s' & W & I & L').
  exists (normalize s'). unfold update. rewrite W. split; [reflexivity|].
  unfold normalize. destruct (truediv_index s' (Pd.sum s')) as [I2 L2].
  split; congruence.
Qed.

Lemma update_keeps_index_witness :
  exists posterior,
    update (grid_of coin2) (of_finite coin2) [(Heads, 3%nat)] = Ok posterior
    /\ Pd.index posterior = Pd.index (of_finite coin2)
    /\ length posterior = length (of_finite coin2).
Proof.
  apply (@update_keeps_index (grid_of coin2) (of_finite coin2) [(Heads, 3%nat)]).
  reflexivity.
Defined.

(** X2.  When the prior has another number of entries than the grid
    (and the grid is not a single point, which numpy would broadcast),
    every update with at least one outcome raises ValueError, at its
    first multiplication. *)
Theorem update_shape_mismatch_raises :
  forall (xs : list num) (prior : Pd.Series) (oc : outcome * nat)
         (rest : list (outcome * nat)),
    length prior <> length xs ->
    length xs <> 1%nat ->
    update xs prior (oc :: rest) = Raise ValueError
    /\ (forall h t : nat, posterior_counts_cell xs prior h t = Raise ValueError)
    /\ posterior_cell xs prior = Raise ValueError.
Proof.
  intros xs prior [o c] rest N N1.
  assert (M : forall a, length a = length xs -> Pd.mul_array prior a = Raise ValueError).
  { intros a La. apply mul_array_mismatch; congruence. }
  split; [|split].
  - unfold update. simpl. rewrite M; [reflexivity|].
    unfold Np.power. now rewrite length_map, likelihood_array_length.
  - intros h t. unfold posterior_counts_cell. rewrite M; [reflexivity|].
    unfold Np.power. now rewrite length_map.
  - unfold posterior_cell. now rewrite M.
Qed.

Lemma update_shape_mismatch_raises_witness :
  update (grid_of coin2) (of_finite point_mass2 ++ of_finite coin2)
    [(Heads, 1%nat)] = Raise ValueError.
Proof.
  apply (@update_shape_mismatch_raises (grid_of coin2)
           (of_finite point_mass2 ++ of_finite coin2) (Heads, 1%nat) []).
  - simpl. lia.
  - simpl. lia.
Defined.

(* ------------------------------------------------------------------ *)
(** *** More on credible intervals *)

Lemma p_lo_times_two (prob : Qc) : p_lo prob * two = 1 - prob.
Proof.
  unfold p_lo, Qcdiv. rewrite <- Qcmult_assoc, Qcmult_inv_l, Qcmult_1_r;
    [reflexivity | apply two_neq_0].
Qed.

Lemma p_lo_antitone (prob prob' : Qc) :
  prob <= prob' -> p_lo prob' <= p_lo prob /\ p_hi prob <= p_hi prob'.
Proof.
  intro H. unfold p_hi.
  pose proof (p_lo_times_two prob) as E. pose proof (p_lo_times_two prob') as E'.
  revert E E'. generalize (p_lo prob) (p_lo prob'). intros l l' E E'.
  assert (T : two = 1 + 1) by (apply Qc_is_canon; reflexivity).
  rewrite T in E, E'. split; qc_lra.
Qed.

(** X11.  A larger probability gives a wider credible interval: for
    every finite PMF with non-negative masses on a non-decreasing grid
    of at least two points and all prob <= prob', the interval returned
    for prob lies inside the one returned for prob'. *)
Theorem credible_interval_widens_with_prob :
  forall (f : pmf) (prob prob' : Qc),
    (2 <= length f)%nat ->
    nondecreasing (map fst f) ->
    (forall m, In m (map snd f) -> 0 <= m) ->
    prob <= prob' ->
    exists low high low' high' : Qc,
      credible_interval (of_finite f) (Fin prob) = Ok (Fin low, Fin high)
      /\ credible_interval (of_finite f) (Fin prob') = Ok (Fin low', Fin high')
      /\ low' <= low /\ high <= high'.
Proof.
  intros f prob prob' L Sx Hm H.
  assert (N : map fst f <> []) by (destruct f; [simpl in L; lia | discriminate]).
  assert (Lc : length (cdf f) = length (map fst f)).
  { unfold cdf. now rewrite Qccumsum_length, !length_map. }
  assert (Nc : cdf f <> []).
  { intro E. rewrite E in Lc. destruct (map fst f); [congruence | discriminate]. }
  assert (Sc : nondecreasing (cdf f)) by now apply Qccumsum_nondecreasing.
  destruct (p_lo_antitone H) as [Hlo Hhi].
  exists (inverse_cdf f (p_lo prob)), (inverse_cdf f (p_hi prob)),
         (inverse_cdf f (p_lo prob')), (inverse_cdf f (p_hi prob')).
  split; [now apply credible_interval_finite|].
  split; [now apply credible_interval_finite|].
  split; now apply Qinterp_mono.
Qed.

Lemma credible_interval_widens_with_prob_witness :
  exists low high low' high' : Qc,
    credible_interval (of_finite coin2) (Fin (Q2Qc (1 # 2))) = Ok (Fin low, Fin high)
    /\ credible_interval (of_finite coin2) (Fin (Q2Qc (9 # 10)))
       = Ok (Fin low', Fin high')
    /\ low' <= low /\ high <= high'.
Proof.
  apply (@credible_interval_widens_with_prob coin2 (Q2Qc (1 # 2)) (Q2Qc (9 # 10))).
  - simpl. lia.
  - simpl. split; [|exact I]. apply Qcle_alt. vm_compute. discriminate.
  - intros m [<- | [<- | []]]; apply Qcle_alt; vm_compute; discriminate.
  - apply Qcle_alt. vm_compute. discriminate.
Defined.

(* ------------------------------------------------------------------ *)
(** *** Normalising in place *)

Lemma nth_error_set_nth_other (h : Heap.heap) (r r' : nat) (s : Pd.Series) :
  r' <> r -> nth_error (Heap.set_nth h r s) r' = nth_error h r'.
Proof.
  revert r r'. induction h as [|s0 h IH]; intros [|r] [|r'] N;
    try reflexivity; try congruence.
  simpl. apply IH. congruence.
Qed.

Lemma set_nth_keeps_length (h : Heap.heap) (r : nat) (s : Pd.Series) :
  length (Heap.set_nth h r s) = length h.
Proof.
  revert r. induction h as [|s0 h IH]; intros [|r]; simpl; try reflexivity.
  now rewrite IH.
Qed.

(** X14.  [s /= s.sum()] works in place: run on an existing Series
    object it makes no new object, returns the same reference, leaves
    every other object as it was, and the object itself then holds the
    Series divided by its sum; so every variable bound to that object
    sees the normalised masses. *)
Theorem normalize_in_place_mutates_only_its_object :
  forall (h : Heap.heap) (r : Heap.ref) (s : Pd.Series),
    nth_error h r = Some s ->
    exists h' : Heap.heap,
      normalize_in_place r h = (Ok r, h')
      /\ length h' = length h
      /\ nth_error h' r = Some (normalize s)
      /\ (forall r', r' <> r -> nth_error h' r' = nth_error h r').
Proof.
  intros h r s Hr. exists (Heap.set_nth h r (normalize s)).
  split; [|split; [|split]].
  - unfold normalize_in_place, Heap.bindM at 1.
    unfold Heap.Series_sum, Heap.Series_itruediv, Heap.bindM, Heap.deref,
      Heap.ret, Heap.store.
    rewrite Hr. cbv beta iota. rewrite Hr. reflexivity.
  - apply set_nth_keeps_length.
  - now apply nth_error_set_nth with (s0 := s).
  - intros r' N. now apply nth_error_set_nth_other.
Qed.

Lemma normalize_in_place_mutates_only_its_object_witness :
  exists h' : Heap.heap,
    normalize_in_place 1%nat [of_finite coin2; of_finite point_mass2]
    = (Ok 1%nat, h')
    /\ length h' = length [of_finite coin2; of_finite point_mass2]
    /\ nth_error h' 1%nat = Some (normalize (of_finite point_mass2))
    /\ (forall r', r' <> 1%nat ->
          nth_error h' r' = nth_error [of_finite coin2; of_finite point_mass2] r').
Proof.
  apply (@normalize_in_place_mutates_only_its_object
           [of_finite coin2; of_finite point_mass2] 1%nat (of_finite point_mass2)).
  reflexivity.
Defined.
